(** * midi_converter_script: the note resolver and the track renderers

    A shallow embedding of [MidiConverter] (midi_converter_script.py) and
    the properties its specification states about it.

    Conventions of the embedding.
    - A Python [str] is a [string]; each [ascii] stands for one code point
      in U+0000..U+00FF, so the tokens of the tables ("D4", "Bb1", "C#")
      are the literals of the source.
    - A Python [int] is a [Z].  The rhythm durations are Python floats; they
      are modelled as rationals [Q].  The model is the code on the
      durations of [exact_beats]: the binary fractions whose product
      with the ticks per beat has no rounding, which covers every
      duration of the tables.  On other floats the code rounds the
      product before it truncates, and on NaN, on the infinities and on
      a product that overflows, [int] raises: these floats have no
      counterpart here, and a statement over all of [Q] says nothing of
      them.
    - Exceptions and [print] are explicit: a computation of type [M A]
      takes standard output (its encoding and the lines printed so far)
      and gives back either a value or a raised exception, together with
      standard output as it is left.  [print] raises UnicodeEncodeError
      when the encoding of standard output cannot encode the line.
    - A track is the list of messages appended to it; a method that
      mutates the track it is given returns the track it leaves. *)

From Stdlib Require Import ZArith QArith String Ascii List Lia.
From stdpp Require Import base option list gmap strings fin_maps pretty.

Local Open Scope string_scope.
Local Open Scope list_scope.
Local Open Scope Z_scope.

(** ** Exceptions and standard output *)

(** The exceptions the methods can meet.  Those that the resolver
    catches carry their message, which its handler prints;
    UnicodeEncodeError is a subclass of ValueError. *)
Inductive exn : Type :=
| ValueError (msg : string)
| UnicodeEncodeError (msg : string)
| IndexError (msg : string)
| KeyError
| ZeroDivisionError.

Inductive result (A : Type) : Type :=
| Ok (a : A)
| Raise (e : exn).

Arguments Ok {A} a.
Arguments Raise {A} e.

(** Standard output: what its encoding makes of a line ([None] when it
    can encode it, the message of the UnicodeEncodeError when it cannot)
    and the lines printed so far. *)
Record stdout : Type := {
  encode_error : string → option string;
  printed : list string
}.

(** A standard output in UTF-8, which encodes every code point of
    U+0000..U+00FF.  Where a standard output is expected, a list of lines
    stands for the UTF-8 standard output that holds them. *)
Definition utf8 (lines : list string) : stdout :=
  {| encode_error := λ _, None; printed := lines |}.

#[warning="-uniform-inheritance"] Coercion utf8 : list >-> stdout.

Arguments pair {A B} & _ _.

Definition M (A : Type) : Type := stdout → result A * stdout.

#[global] Instance M_ret : MRet M := λ A a out, (Ok a, out).

#[global] Instance M_bind : MBind M := λ A B f m out,
  match m out with
  | (Ok a, out') => f a out'
  | (Raise e, out') => (Raise e, out')
  end.

Definition raise {A : Type} (e : exn) : M A := λ out, (Raise e, out).

(** [print(line)]: nothing is written when the line cannot be encoded. *)
Definition print (line : string) : M unit := λ out,
  match encode_error out line with
  | None =>
      (Ok tt, {| encode_error := encode_error out;
                 printed := printed out ++ [line] |})
  | Some msg => (Raise (UnicodeEncodeError msg), out)
  end.

(** [try: body  except (ValueError, IndexError) as e: handler], for a
    handler that reads [e] through [str(e)] only; any other exception
    goes on to the caller. *)
Definition try_except_ValueError_IndexError {A : Type}
    (body : M A) (handler : string → M A) : M A := λ out,
  match body out with
  | (Ok a, out') => (Ok a, out')
  | (Raise (ValueError msg), out') => handler msg out'
  | (Raise (UnicodeEncodeError msg), out') => handler msg out'
  | (Raise (IndexError msg), out') => handler msg out'
  | (Raise e, out') => (Raise e, out')
  end.

(** ** The Python built-ins the methods use *)

(** [len(s)] *)
Definition len_str (s : string) : Z := Z.of_nat (String.length s).

(** [len(l)] *)
Definition len {A : Type} (l : list A) : Z := Z.of_nat (length l).

Fixpoint str_last (s : string) : option ascii :=
  match s with
  | EmptyString => None
  | String c EmptyString => Some c
  | String _ s' => str_last s'
  end.

(** [s[-1]] *)
Definition str_getitem_last (s : string) : M ascii :=
  match str_last s with
  | Some c => mret c
  | None => raise (IndexError "string index out of range")
  end.

(** [s[:-1]] *)
Fixpoint str_drop_last (s : string) : string :=
  match s with
  | EmptyString => EmptyString
  | String _ EmptyString => EmptyString
  | String c s' => String c (str_drop_last s')
  end.

Definition is_decimal (c : ascii) : bool :=
  let n := N_of_ascii c in ((48 <=? n) && (n <=? 57))%N.

(** [c.isdigit()]: the decimal digits and, in this range of code points,
    the superscripts U+00B2, U+00B3 and U+00B9. *)
Definition isdigit (c : ascii) : bool :=
  let n := N_of_ascii c in
  is_decimal c || (n =? 178)%N || (n =? 179)%N || (n =? 185)%N.

Definition digit_value (c : ascii) : Z := Z.of_N (N_of_ascii c) - 48.

(** [int(c)] for a one-character string: only a decimal digit parses. *)
Definition int_of_char (c : ascii) : M Z :=
  if is_decimal c then mret (digit_value c)
  else raise (ValueError
         ("invalid literal for int() with base 10: '" ++ String c "'")%string).

(** [int(x)] for a number: truncation towards zero. *)
Definition int_of_number (x : Q) : Z := Z.quot (Qnum x) (Z.pos (Qden x)).

(** [a // b] *)
Definition floordiv (a b : Z) : M Z :=
  if b =? 0 then raise ZeroDivisionError else mret (a / b).

(** [a % b] *)
Definition py_mod (a b : Z) : M Z :=
  if b =? 0 then raise ZeroDivisionError else mret (a mod b).

(** [l[k]], negative indices counting from the end. *)
Definition list_getitem {A : Type} (l : list A) (k : Z) : M A :=
  let k' := if k <? 0 then k + len l else k in
  if k' <? 0 then raise (IndexError "list index out of range")
  else match l !! Z.to_nat k' with
       | Some x => mret x
       | None => raise (IndexError "list index out of range")
       end.

(** [l * n] *)
Definition list_mul {A : Type} (l : list A) (n : Z) : list A :=
  concat (replicate (Z.to_nat n) l).

(** [l[:k]] *)
Definition list_slice_to {A : Type} (l : list A) (k : Z) : list A :=
  if k <? 0 then take (length l - Z.to_nat (- k)) l
  else take (Z.to_nat k) l.

(** [d.get(k, dflt)] *)
Definition dict_get {V : Type} (d : gmap string V) (k : string) (dflt : V) : V :=
  default dflt (d !! k).

(** [d[k]] *)
Definition dict_getitem {V : Type} (d : gmap string V) (k : string) : M V :=
  match d !! k with
  | Some v => mret v
  | None => raise KeyError
  end.

(** ** mido messages *)

Inductive Message : Type :=
| note_on (channel note velocity time : Z)
| note_off (channel note velocity time : Z).

Definition data_byte (v : Z) : bool := (0 <=? v) && (v <=? 127).
Definition channel_ok (c : Z) : bool := (0 <=? c) && (c <=? 15).

(** [Message('note_on', channel=c, note=n, velocity=v, time=t)]: mido
    checks the channel and the two data bytes when it builds a message. *)
Definition Message_note_on (c n v t : Z) : M Message :=
  if negb (channel_ok c) then raise (ValueError "channel must be in range 0..15")
  else if negb (data_byte n && data_byte v)
  then raise (ValueError "data byte must be in range 0..127")
  else mret (note_on c n v t).

(** [Message('note_off', channel=c, note=n, velocity=v, time=t)] *)
Definition Message_note_off (c n v t : Z) : M Message :=
  if negb (channel_ok c) then raise (ValueError "channel must be in range 0..15")
  else if negb (data_byte n && data_byte v)
  then raise (ValueError "data byte must be in range 0..127")
  else mret (note_off c n v t).

(** ** The converter object *)

Record MidiConverter : Type := {
  tempo : Z;
  ticks_per_beat : Z;
  key : string;
  notes : gmap string Z;
  chords : gmap string (list Z);
  structure : list (string * Z)
}.

(** [MidiConverter.__init__] *)
Definition MidiConverter_init : MidiConverter := {|
  tempo := 85;
  ticks_per_beat := 480;
  key := "Dm";
  notes := list_to_map
    [("C", 60); ("C#", 61); ("Db", 61); ("D", 62); ("D#", 63); ("Eb", 63);
     ("E", 64); ("F", 65); ("F#", 66); ("Gb", 66); ("G", 67); ("G#", 68);
     ("Ab", 68); ("A", 69); ("A#", 70); ("Bb", 70); ("B", 71)];
  chords := list_to_map
    [("Dm", [62; 65; 69]);
     ("Bb", [70; 62; 65]);
     ("F", [65; 69; 60]);
     ("C", [60; 64; 67]);
     ("Gm", [67; 70; 62]);
     ("A7", [69; 61; 64; 67])];
  structure :=
    [("intro", 8); ("verse1", 16); ("pre_chorus1", 8); ("chorus1", 16);
     ("verse2", 16); ("pre_chorus2", 8); ("chorus2", 16); ("bridge", 12);
     ("final_chorus", 24); ("outro", 8)]
|}.

(** [beats_to_ticks]: [int(beats * self.ticks_per_beat)].  The product
    is the exact one, which is the float product on the durations of
    [exact_beats] only. *)
Definition beats_to_ticks (self : MidiConverter) (beats : Q) : Z :=
  int_of_number (beats * inject_Z (ticks_per_beat self)).

(** [note_name_to_midi] *)
Definition note_name_to_midi (self : MidiConverter) (note_name : string) : M Z :=
  if String.eqb note_name EmptyString || String.eqb note_name "rest" then mret 60
  else if len_str note_name <? 2 then mret (dict_get (notes self) note_name 60)
  else
    try_except_ValueError_IndexError
      (c ← str_getitem_last note_name;
       '(note, octave) ←
         (if isdigit c
          then c' ← str_getitem_last note_name;
               octave ← int_of_char c';
               mret (str_drop_last note_name, octave)
          else mret (note_name, 4));
       let base_note := dict_get (notes self) note 60 in
       let midi_note := base_note + (octave - 4) * 12 in
       let midi_note := Z.max 0 (Z.min 127 midi_note) in
       mret midi_note)
      (λ e,
         print ("Warning: Could not parse note '" ++ note_name ++
                "', using default. Error: " ++ e)%string;;
         mret 60).


(** The two inner loops of [add_chord_progression]: the messages of one
    chord, the first of them carrying the pending time. *)
Fixpoint chord_notes_on (chord_notes : list Z) (velocity : Z)
    (track : list Message) (current_time : Z) : M (list Message * Z) :=
  match chord_notes with
  | [] => mret (track, current_time)
  | note :: rest =>
      m ← Message_note_on 0 note velocity current_time;
      chord_notes_on rest velocity (track ++ [m]) 0
  end.

Fixpoint chord_notes_off (chord_notes : list Z)
    (track : list Message) (hold_time : Z) : M (list Message * Z) :=
  match chord_notes with
  | [] => mret (track, hold_time)
  | note :: rest =>
      m ← Message_note_off 0 note 0 hold_time;
      chord_notes_off rest (track ++ [m]) 0
  end.

(** The loop over [chord_sequence]; its state is the track and
    [current_time]. *)
Fixpoint chord_loop (self : MidiConverter) (velocity : Z) (beats_per_chord : Q)
    (chord_sequence : list string)
    (track : list Message) (current_time : Z) : M (list Message * Z) :=
  match chord_sequence with
  | [] => mret (track, current_time)
  | chord :: rest =>
      match chords self !! chord with
      | Some chord_notes =>
          '(track, _) ← chord_notes_on chord_notes velocity track current_time;
          let hold_time := beats_to_ticks self beats_per_chord in
          '(track, _) ← chord_notes_off chord_notes track hold_time;
          chord_loop self velocity beats_per_chord rest track 0
      | None =>
          chord_loop self velocity beats_per_chord rest track current_time
      end
  end.

(** [chord_sequence = (chords * (bars // len(chords) + 1))[:bars]] *)
Definition chord_sequence_of (chord_names : list string) (bars : Z)
    : M (list string) :=
  q ← floordiv bars (len chord_names);
  mret (list_slice_to (list_mul chord_names (q + 1)) bars).

(** [add_chord_progression] *)
Definition add_chord_progression (self : MidiConverter) (track : list Message)
    (chord_names : list string) (bars velocity time_offset : Z)
    : M (list Message) :=
  let beats_per_chord := 4%Q in
  let current_time := time_offset in
  chord_sequence ← chord_sequence_of chord_names bars;
  '(track, _) ← chord_loop self velocity beats_per_chord chord_sequence
                  track current_time;
  mret track.

(** The loop of [add_melody] over [enumerate(melody_notes)], from index
    [i]; its state is the track and [current_time]. *)
Fixpoint melody_loop (self : MidiConverter) (rhythm_pattern : list Q)
    (velocity : Z) (melody_notes : list string) (i : Z)
    (track : list Message) (current_time : Z) : M (list Message * Z) :=
  match melody_notes with
  | [] => mret (track, current_time)
  | note_name :: rest =>
      if String.eqb note_name "rest" then
        k ← py_mod i (len rhythm_pattern);
        beats ← list_getitem rhythm_pattern k;
        melody_loop self rhythm_pattern velocity rest (i + 1) track
          (current_time + beats_to_ticks self beats)
      else
        midi_note ← note_name_to_midi self note_name;
        k ← py_mod i (len rhythm_pattern);
        beats ← list_getitem rhythm_pattern k;
        let duration := beats_to_ticks self beats in
        on ← Message_note_on 1 midi_note velocity current_time;
        let track := track ++ [on] in
        off ← Message_note_off 1 midi_note 0 duration;
        let track := track ++ [off] in
        melody_loop self rhythm_pattern velocity rest (i + 1) track 0
  end.

(** [add_melody] *)
Definition add_melody (self : MidiConverter) (track : list Message)
    (melody_notes : list string) (rhythm_pattern : list Q)
    (velocity time_offset : Z) : M (list Message) :=
  let current_time := time_offset in
  '(track, _) ← melody_loop self rhythm_pattern velocity melody_notes 0
                  track current_time;
  mret track.

(** The loop of [add_bass_line]. *)
Fixpoint bass_loop (self : MidiConverter) (velocity : Z) (beats_per_note : Q)
    (bass_notes : list string)
    (track : list Message) (current_time : Z) : M (list Message * Z) :=
  match bass_notes with
  | [] => mret (track, current_time)
  | note_name :: rest =>
      midi_note ← note_name_to_midi self note_name;
      let duration := beats_to_ticks self beats_per_note in
      on ← Message_note_on 2 midi_note velocity current_time;
      let track := track ++ [on] in
      off ← Message_note_off 2 midi_note 0 duration;
      let track := track ++ [off] in
      bass_loop self velocity beats_per_note rest track 0
  end.

(** [add_bass_line] *)
Definition add_bass_line (self : MidiConverter) (track : list Message)
    (bass_notes : list string) (velocity time_offset : Z) : M (list Message) :=
  let current_time := time_offset in
  let beats_per_note := 4%Q in
  '(track, _) ← bass_loop self velocity beats_per_note bass_notes
                  track current_time;
  mret track.


(** The per-section dictionaries of [create_section]. *)
Record SectionData : Type := {
  s_chords : list string;
  s_melody : list string;
  s_bass : list string;
  s_velocity : Z;
  s_rhythm : list Q
}.

(** The local table [section_data] of [create_section]. *)
Definition section_data : gmap string SectionData := list_to_map
  [("intro", {|
      s_chords := list_mul ["Dm"; "Bb"; "F"; "C"] 2;
      s_melody := list_mul ["D4"; "F4"; "G4"; "F4"; "D4"; "C4"; "D4"; "D4"] 2;
      s_bass := list_mul ["D2"; "Bb1"; "F1"; "C2"] 2;
      s_velocity := 60;
      s_rhythm := [0.5; 0.5; 0.5; 0.5; 0.5; 0.5; 1.0; 1.0]%Q |});
   ("verse1", {|
      s_chords := list_mul ["Dm"; "Bb"; "F"; "C"; "Dm"; "Bb"; "F"; "A7"] 2;
      s_melody := list_mul ["D4"; "F4"; "G4"; "F4"; "D4"; "C4"; "D4"; "D4";
                            "F4"; "G4"; "A4"; "G4"; "F4"; "D4"; "F4"; "F4"] 1;
      s_bass := list_mul ["D2"; "Bb1"; "F1"; "C2"; "D2"; "Bb1"; "F1"; "A1"] 2;
      s_velocity := 65;
      s_rhythm := [1.0; 0.5; 0.5; 1.0; 1.0; 0.5; 0.5; 2.0]%Q |});
   ("pre_chorus1", {|
      s_chords := ["Bb"; "C"; "Dm"; "Dm"; "Bb"; "C"; "F"; "A7"];
      s_melody := ["Bb4"; "A4"; "G4"; "F4"; "G4"; "A4"; "Bb4"; "C5";
                   "D5"; "C5"; "Bb4"; "A4"; "G4"; "F4"; "G4"; "A4"];
      s_bass := ["Bb1"; "C2"; "D2"; "D2"; "Bb1"; "C2"; "F1"; "A1"];
      s_velocity := 75;
      s_rhythm := [0.5; 0.5; 0.5; 0.5; 0.5; 0.5; 1.0; 1.0]%Q |});
   ("chorus1", {|
      s_chords := list_mul ["Dm"; "Bb"; "F"; "C"; "Gm"; "Bb"; "F"; "A7"] 2;
      s_melody := list_mul ["D5"; "F5"; "G5"; "F5"; "D5"; "C5"; "D5"; "D5";
                            "Bb4"; "C5"; "D5"; "F5"; "G5"; "A5"; "F5"; "D5"] 1;
      s_bass := list_mul ["D2"; "Bb1"; "F1"; "C2"; "G1"; "Bb1"; "F1"; "A1"] 2;
      s_velocity := 100;
      s_rhythm := [1.0; 1.0; 0.5; 0.5; 1.0; 1.0; 1.0; 1.0]%Q |});
   ("verse2", {|
      s_chords := list_mul ["Dm"; "Bb"; "F"; "C"; "Dm"; "Bb"; "F"; "A7"] 2;
      s_melody := list_mul ["D4"; "F4"; "G4"; "F4"; "D4"; "C4"; "D4"; "D4";
                            "F4"; "G4"; "A4"; "G4"; "F4"; "D4"; "F4"; "F4"] 1;
      s_bass := list_mul ["D2"; "Bb1"; "F1"; "C2"; "D2"; "Bb1"; "F1"; "A1"] 2;
      s_velocity := 70;
      s_rhythm := [1.0; 0.5; 0.5; 1.0; 1.0; 0.5; 0.5; 2.0]%Q |});
   ("pre_chorus2", {|
      s_chords := ["Bb"; "C"; "Dm"; "Dm"; "Bb"; "C"; "F"; "A7"];
      s_melody := ["Bb4"; "A4"; "G4"; "F4"; "G4"; "A4"; "Bb4"; "C5";
                   "D5"; "C5"; "Bb4"; "A4"; "G4"; "F4"; "G4"; "A4"];
      s_bass := ["Bb1"; "C2"; "D2"; "D2"; "Bb1"; "C2"; "F1"; "A1"];
      s_velocity := 85;
      s_rhythm := [0.5; 0.5; 0.5; 0.5; 0.5; 0.5; 1.0; 1.0]%Q |});
   ("chorus2", {|
      s_chords := list_mul ["Dm"; "Bb"; "F"; "C"; "Gm"; "Bb"; "F"; "A7"] 2;
      s_melody := list_mul ["D5"; "F5"; "G5"; "F5"; "D5"; "C5"; "D5"; "D5";
                            "Bb4"; "C5"; "D5"; "F5"; "G5"; "A5"; "F5"; "D5"] 1;
      s_bass := list_mul ["D2"; "Bb1"; "F1"; "C2"; "G1"; "Bb1"; "F1"; "A1"] 2;
      s_velocity := 110;
      s_rhythm := [1.0; 1.0; 0.5; 0.5; 1.0; 1.0; 1.0; 1.0]%Q |});
   ("bridge", {|
      s_chords := ["Bb"; "F"; "C"; "Dm"; "Bb"; "F"; "A7"; "A7";
                   "Gm"; "Bb"; "C"; "Dm"];
      s_melody := ["F5"; "G5"; "A5"; "Bb5"; "A5"; "G5"; "F5"; "F5";
                   "A5"; "G5"; "F5"; "D5"; "F5"; "G5"; "A5"; "Bb5"];
      s_bass := ["Bb1"; "F1"; "C2"; "D2"; "Bb1"; "F1"; "A1"; "A1";
                 "G1"; "Bb1"; "C2"; "D2"];
      s_velocity := 95;
      s_rhythm := [0.5; 0.5; 0.5; 0.5; 0.5; 0.5; 1.0; 1.0]%Q |});
   ("final_chorus", {|
      s_chords := list_mul ["Dm"; "Bb"; "F"; "C"; "Gm"; "Bb"; "F"; "A7"] 3;
      s_melody := list_mul ["D5"; "F5"; "G5"; "F5"; "D5"; "C5"; "D5"; "D5";
                            "Bb4"; "C5"; "D5"; "F5"; "G5"; "A5"; "F5"; "D5"] 3;
      s_bass := list_mul ["D2"; "Bb1"; "F1"; "C2"; "G1"; "Bb1"; "F1"; "A1"] 3;
      s_velocity := 127;
      s_rhythm := [1.0; 1.0; 0.5; 0.5; 1.0; 1.0; 1.0; 1.0]%Q |});
   ("outro", {|
      s_chords := ["Dm"; "Bb"; "F"; "C"; "Dm"; "Dm"];
      s_melody := ["D5"; "F5"; "G5"; "F5"; "D5"; "D5"];
      s_bass := ["D2"; "Bb1"; "F1"; "C2"; "D2"; "D2"];
      s_velocity := 60;
      s_rhythm := [2.0; 2.0; 2.0; 2.0; 4.0; 4.0]%Q |})].

(** [create_section]: [section_data.get(section_name, section_data['intro'])].
    The arguments [bars] and [start_time] are not read. *)
Definition create_section (self : MidiConverter) (section_name : string)
    (bars start_time : Z) : M SectionData :=
  intro ← dict_getitem section_data "intro";
  mret (dict_get section_data section_name intro).

(** The three tracks the loop of [generate_midi] appends to. *)
Record Tracks : Type := {
  chord_track : list Message;
  melody_track : list Message;
  bass_track : list Message
}.

(** The three renderer calls of the loop body of [generate_midi], for the
    section data [sd] and the time offset [offset] they are all given. *)
Definition render_section_data (self : MidiConverter) (sd : SectionData)
    (bars offset : Z) (t : Tracks) : M Tracks :=
  ct ← add_chord_progression self (chord_track t) (s_chords sd) bars
         (s_velocity sd) offset;
  mt ← add_melody self (melody_track t) (s_melody sd) (s_rhythm sd)
         (Z.min (s_velocity sd + 10) 127) offset;
  bt ← add_bass_line self (bass_track t) (s_bass sd)
         (Z.max 50 (s_velocity sd - 15)) offset;
  mret {| chord_track := ct; melody_track := mt; bass_track := bt |}.

(** The body of the loop of [generate_midi]: its state is the tracks and
    [current_time], which it leaves at 0. *)
Definition generate_section (self : MidiConverter) (section_name : string)
    (bars : Z) (t : Tracks) (current_time : Z) : M (Tracks * Z) :=
  sd ← create_section self section_name bars 0;
  let offset := if String.eqb section_name "intro" then current_time else 0 in
  t ← render_section_data self sd bars offset t;
  mret (t, 0).

(** The loop of [generate_midi] over [self.structure]. *)
Fixpoint generate_sections (self : MidiConverter) (sections : list (string * Z))
    (t : Tracks) (current_time : Z) : M (Tracks * Z) :=
  match sections with
  | [] => mret (t, current_time)
  | (section_name, bars) :: rest =>
      '(t, current_time) ← generate_section self section_name bars t current_time;
      generate_sections self rest t current_time
  end.

Definition empty_tracks : Tracks :=
  {| chord_track := []; melody_track := []; bass_track := [] |}.


(** ** Vocabulary of the properties *)

(** [m] returns [a], whatever has been printed before. *)
Definition returns {A : Type} (m : M A) (a : A) : Prop :=
  ∀ out, ∃ out', m out = (Ok a, out').

(** [m] raises [e], whatever has been printed before. *)
Definition raises {A : Type} (m : M A) (e : exn) : Prop :=
  ∀ out, ∃ out', m out = (Raise e, out').

(** The delta-time of a message and the sum of the delta-times of a stream. *)
Definition msg_time (m : Message) : Z :=
  match m with
  | note_on _ _ _ t => t
  | note_off _ _ _ t => t
  end.

Definition total_time (evs : list Message) : Z :=
  foldr (λ m acc, msg_time m + acc) 0 evs.

Definition is_note_on (m : Message) : bool :=
  match m with note_on _ _ _ _ => true | note_off _ _ _ _ => false end.

Definition is_note_off (m : Message) : bool :=
  match m with note_on _ _ _ _ => false | note_off _ _ _ _ => true end.

Definition count_msgs (p : Message → bool) (evs : list Message) : nat :=
  length (List.filter p evs).

(** A stream made of begin/end pairs: every [note_on] is followed at once
    by the [note_off] of the same channel and pitch. *)
Fixpoint paired (evs : list Message) : Prop :=
  match evs with
  | [] => True
  | note_on c n _ _ :: note_off c' n' _ _ :: rest =>
      c = c' ∧ n = n' ∧ paired rest
  | _ => False
  end.

(** The duration that [add_melody] reads for the token at position [j]:
    [rhythm_pattern[j % len(rhythm_pattern)]]. *)
Definition beat_at (rhythm_pattern : list Q) (j : nat) : Q :=
  nth (j mod length rhythm_pattern) rhythm_pattern 0%Q.

(** The durations read for the [n] tokens from position [j] on. *)
Definition beats_from (rhythm_pattern : list Q) (j n : nat) : list Q :=
  map (beat_at rhythm_pattern) (seq j n).

Definition Qsum (l : list Q) : Q := foldr Qplus 0%Q l.

Definition Zsum (l : list Z) : Z := foldr Z.add 0 l.

(** The begins of one chord with pitches [ps], the first at
    [current_time], and its ends, the first after [hold_time]. *)
Definition chord_ons (velocity current_time : Z) (ps : list Z) : list Message :=
  match ps with
  | [] => []
  | p :: ps' => note_on 0 p velocity current_time
                  :: map (λ n, note_on 0 n velocity 0) ps'
  end.

Definition chord_offs (hold_time : Z) (ps : list Z) : list Message :=
  match ps with
  | [] => []
  | p :: ps' => note_off 0 p 0 hold_time :: map (λ n, note_off 0 n 0 0) ps'
  end.

Definition chord_block (velocity hold_time current_time : Z) (ps : list Z)
    : list Message :=
  chord_ons velocity current_time ps ++ chord_offs hold_time ps.

(** The messages of a chord sequence, one block per chord, from the
    pending time [current_time]. *)
Fixpoint chord_blocks (self : MidiConverter) (velocity hold_time : Z)
    (chord_sequence : list string) (current_time : Z) : list (list Message) :=
  match chord_sequence with
  | [] => []
  | chord :: rest =>
      match chords self !! chord with
      | Some ps =>
          chord_block velocity hold_time current_time ps
            :: chord_blocks self velocity hold_time rest 0
      | None => [] :: chord_blocks self velocity hold_time rest current_time
      end
  end.

(** One begin per pitch of [ps], in order, on channel 0. *)
Definition begins_for (ps : list Z) (evs : list Message) : Prop :=
  Forall2 (λ p m, ∃ v t, m = note_on 0 p v t) ps evs.

(** One end per pitch of [ps], in order, on channel 0. *)
Definition ends_for (ps : list Z) (evs : list Message) : Prop :=
  Forall2 (λ p m, ∃ v t, m = note_off 0 p v t) ps evs.

(** What the chord named [chord] adds to the stream. *)
Definition chord_contribution (self : MidiConverter) (chord : string)
    (block : list Message) : Prop :=
  match chords self !! chord with
  | Some ps => ∃ ons offs, block = ons ++ offs ∧ begins_for ps ons ∧ ends_for ps offs
  | None => block = []
  end.

Definition known_chord (self : MidiConverter) (chord : string) : bool :=
  bool_decide (is_Some (chords self !! chord)).

Definition count_known (self : MidiConverter) (chord_sequence : list string) : nat :=
  length (List.filter (known_chord self) chord_sequence).

Definition count_unknown (self : MidiConverter) (chord_sequence : list string) : nat :=
  length (List.filter (λ c, negb (known_chord self c)) chord_sequence).

Definition clamp (v : Z) : Z := Z.max 0 (Z.min 127 v).

(** What the melody of a section of the table satisfies: no rest, a
    rhythm to read, durations whose ticks are exact, and a rhythm that is
    read a whole number of times. *)
Definition melody_checked (self : MidiConverter) (sd : SectionData) : bool :=
  let read := beats_from (s_rhythm sd) 0 (length (s_melody sd)) in
  forallb (λ n, negb (String.eqb n "rest")) (s_melody sd)
  && negb (Nat.eqb (length (s_rhythm sd)) 0)
  && Qeq_bool (inject_Z (Zsum (map (beats_to_ticks self) read)))
       (Qsum read * inject_Z (ticks_per_beat self))
  && Qeq_bool (Qsum read)
       (inject_Z (len (s_melody sd) / len (s_rhythm sd)) * Qsum (s_rhythm sd)).

(** ** The lead hook of [generate_midi] *)

Definition lead_hook : list string :=
  ["A5"; "F5"; "D5"; "F5"; "G5"; "A5"; "Bb5"; "A5";
   "F5"; "D5"; "C5"; "D5"; "F5"; "G5"; "F5"; "D5"].

Definition lead_rhythm : list Q := [0.5; 0.5; 0.5; 0.5; 0.5; 0.5; 1.0; 1.0]%Q.

(** The two statements of [generate_midi] that put the hook on
    [lead_track]:
    [chorus_start_time = self.beats_to_ticks(32)] and
    [self.add_melody(lead_track, lead_hook, lead_rhythm, 100, chorus_start_time)]. *)
Definition add_lead_hook (self : MidiConverter) (lead_track : list Message)
    : M (list Message) :=
  let chorus_start_time := beats_to_ticks self 32 in
  add_melody self lead_track lead_hook lead_rhythm 100 chorus_start_time.

(** ** Vocabulary of the further properties *)

(** [m] prints nothing, whatever it returns or raises. *)
Definition silent {A : Type} (m : M A) : Prop :=
  ∀ out r out', m out = (r, out') → out' = out.

(** The result [r] of a renderer run on the empty track, seen from the
    track [track] it was asked to extend. *)
Definition prepend (track : list Message) (r : result (list Message) * stdout)
    : result (list Message) * stdout :=
  match r with
  | (Ok evs, out) => (Ok (track ++ evs), out)
  | (Raise e, out) => (Raise e, out)
  end.

(** The same for a loop, whose state also holds the pending time. *)
Definition extend (track : list Message)
    (r : result (list Message * Z) * stdout)
    : result (list Message * Z) * stdout :=
  match r with
  | (Ok (evs, ct), out) => (Ok (track ++ evs, ct), out)
  | (Raise e, out) => (Raise e, out)
  end.

Definition msg_channel (m : Message) : Z :=
  match m with note_on c _ _ _ => c | note_off c _ _ _ => c end.

Definition msg_note (m : Message) : Z :=
  match m with note_on _ n _ _ => n | note_off _ n _ _ => n end.

Definition msg_velocity (m : Message) : Z :=
  match m with note_on _ _ v _ => v | note_off _ _ v _ => v end.

(** The tokens of a melody that are not rests. *)
Definition pitched (melody : list string) : list string :=
  List.filter (λ n, negb (String.eqb n "rest")) melody.

(** The tokens on which the resolver prints its warning: two characters
    or more, the last one a digit for [isdigit] but not for [int]. *)
Definition warns (t : string) : bool :=
  negb (String.eqb t EmptyString || String.eqb t "rest")
  && negb (len_str t <? 2)
  && match str_last t with
     | Some c => isdigit c && negb (is_decimal c)
     | None => false
     end.

Definition warning_of (t : string) : list string :=
  if warns t then
    match str_last t with
    | Some c =>
        [("Warning: Could not parse note '" ++ t ++
          "', using default. Error: invalid literal for int() with base 10: '" ++
          String c "'")%string]
    | None => []
    end
  else [].

(** Standard output after the lines [ls] have been printed on it. *)
Definition with_lines (out : stdout) (ls : list string) : stdout :=
  {| encode_error := encode_error out; printed := printed out ++ ls |}.

(** What standard output makes of the warning of the token [t]: [None]
    when there is no warning or when it can be encoded. *)
Definition print_error (out : stdout) (t : string) : option string :=
  match warning_of t with
  | [] => None
  | line :: _ => encode_error out line
  end.

(** A standard output in ASCII, as with PYTHONIOENCODING=ascii.  The codec
    reports the first run of characters above U+007F. *)
Fixpoint non_ascii_run (s : string) : nat :=
  match s with
  | EmptyString => 0
  | String c s' =>
      if (128 <=? N_of_ascii c)%N then S (non_ascii_run s') else 0
  end.

Definition hex_digit (n : N) : ascii :=
  if (n <? 10)%N then ascii_of_N (48 + n) else ascii_of_N (87 + n).

Definition hex2 (c : ascii) : string :=
  String (hex_digit (N_of_ascii c / 16))
    (String (hex_digit (N_of_ascii c mod 16)) EmptyString).

Fixpoint ascii_encode_error (s : string) (i : nat) : option string :=
  match s with
  | EmptyString => None
  | String c s' =>
      if (128 <=? N_of_ascii c)%N then
        Some (match non_ascii_run s' with
              | O => "'ascii' codec can't encode character '\x" ++ hex2 c ++
                     "' in position " ++ pretty i ++
                     ": ordinal not in range(128)"
              | S n => "'ascii' codec can't encode characters in position " ++
                       pretty i ++ "-" ++ pretty (i + S n)%nat ++
                       ": ordinal not in range(128)"
              end)%string
      else ascii_encode_error s' (S i)
  end.

Definition ascii_stdout : stdout :=
  {| encode_error := λ line, ascii_encode_error line 0; printed := [] |}.

(** The durations on which the model of [beats_to_ticks] is the code: a
    binary fraction n/2^k, small enough for the float and its product
    with the ticks per beat to be exact in double precision. *)
Fixpoint power_of_two (p : positive) : bool :=
  match p with
  | xH => true
  | xO p' => power_of_two p'
  | xI _ => false
  end.

Definition exact_beats (self : MidiConverter) (beats : Q) : bool :=
  let r := Qred beats in
  power_of_two (Qden r)
  && (Z.pos (Qden r) <=? 2 ^ 1000)
  && (Z.abs (ticks_per_beat self) <? 2 ^ 53)
  && (Z.abs (Qnum r) <? 2 ^ 53)
  && (Z.abs (Qnum r) * Z.abs (ticks_per_beat self) <? 2 ^ 53).

(** The value the resolver returns, as a function of the token. *)
Definition pitch_of (self : MidiConverter) (t : string) : Z :=
  if String.eqb t EmptyString || String.eqb t "rest" then 60
  else if len_str t <? 2 then dict_get (notes self) t 60
  else match str_last t with
       | Some c =>
           if isdigit c
           then if is_decimal c
                then clamp (dict_get (notes self) (str_drop_last t) 60
                            + (digit_value c - 4) * 12)
                else 60
           else clamp (dict_get (notes self) t 60 + (4 - 4) * 12)
       | None => 60
       end.

(** The messages [add_melody] appends for the tokens from position [j]
    on, with [ct] the time pending, and the time left pending at the end. *)
Fixpoint melody_events (self : MidiConverter) (rhythm : list Q) (velocity : Z)
    (melody : list string) (j : nat) (ct : Z) : list Message :=
  match melody with
  | [] => []
  | name :: rest =>
      let ticks := beats_to_ticks self (beat_at rhythm j) in
      if String.eqb name "rest"
      then melody_events self rhythm velocity rest (S j) (ct + ticks)
      else note_on 1 (pitch_of self name) velocity ct
             :: note_off 1 (pitch_of self name) 0 ticks
             :: melody_events self rhythm velocity rest (S j) 0
  end.

Fixpoint melody_pending (self : MidiConverter) (rhythm : list Q)
    (melody : list string) (j : nat) (ct : Z) : Z :=
  match melody with
  | [] => ct
  | name :: rest =>
      if String.eqb name "rest"
      then melody_pending self rhythm rest (S j)
             (ct + beats_to_ticks self (beat_at rhythm j))
      else melody_pending self rhythm rest (S j) 0
  end.

(** The messages [add_bass_line] appends. *)
Fixpoint bass_events (self : MidiConverter) (velocity hold : Z)
    (bass : list string) (ct : Z) : list Message :=
  match bass with
  | [] => []
  | name :: rest =>
      note_on 2 (pitch_of self name) velocity ct
        :: note_off 2 (pitch_of self name) 0 hold
        :: bass_events self velocity hold rest 0
  end.

(** What the loop of [generate_midi] needs of a section of the table to
    render it without an exception and without a warning. *)
Definition section_renders (self : MidiConverter) (sd : SectionData) : bool :=
  negb (Nat.eqb (length (s_chords sd)) 0)
  && negb (Nat.eqb (length (s_rhythm sd)) 0)
  && forallb (known_chord self) (s_chords sd)
  && forallb (λ t, negb (warns t)) (s_melody sd)
  && forallb (λ t, negb (warns t)) (s_bass sd)
  && data_byte (s_velocity sd)
  && data_byte (Z.min (s_velocity sd + 10) 127)
  && data_byte (Z.max 50 (s_velocity sd - 15)).

(** ** The error monad *)

Section Monad.
Context {A B : Type}.

Lemma bind_Ok (m : M A) (f : A → M B) out a out1 :
  m out = (Ok a, out1) → (m ≫= f) out = f a out1.
Proof. intros H. unfold mbind, M_bind. by rewrite H. Qed.

Lemma bind_Raise (m : M A) (f : A → M B) out e out1 :
  m out = (Raise e, out1) → (m ≫= f) out = (Raise e, out1).
Proof. intros H. unfold mbind, M_bind. by rewrite H. Qed.

Lemma bind_inv (m : M A) (f : A → M B) out b out2 :
  (m ≫= f) out = (Ok b, out2) →
  ∃ a out1, m out = (Ok a, out1) ∧ f a out1 = (Ok b, out2).
Proof.
  unfold mbind, M_bind. destruct (m out) as [[a|e] out1]; [eauto | discriminate].
Qed.

Lemma returns_bind (m : M A) (f : A → M B) a b :
  returns m a → returns (f a) b → returns (m ≫= f) b.
Proof.
  intros Hm Hf out. destruct (Hm out) as [out1 H1].
  destruct (Hf out1) as [out2 H2]. exists out2.
  by rewrite (bind_Ok _ _ _ _ _ H1).
Qed.

Lemma raises_bind (m : M A) (f : A → M B) e :
  raises m e → raises (m ≫= f) e.
Proof.
  intros Hm out. destruct (Hm out) as [out1 H1]. exists out1.
  by apply bind_Raise.
Qed.

Lemma returns_ret (a : A) : returns (mret a) a.
Proof. intros out. by exists out. Qed.

Lemma returns_inj (m : M A) (a a' : A) :
  returns m a → returns m a' → a = a'.
Proof.
  intros H H'. destruct (H []) as [o E], (H' []) as [o' E'].
  rewrite E in E'. by injection E'.
Qed.

Lemma returns_Ok (m : M A) (a a' : A) out out' :
  returns m a → m out = (Ok a', out') → a' = a.
Proof. intros H E. destruct (H out) as [o E']. rewrite E in E'. by injection E'. Qed.
End Monad.

(** ** Strings and lists *)

Lemma str_last_snoc (p : string) (d : ascii) :
  str_last (p ++ String d EmptyString)%string = Some d.
Proof.
  induction p as [|c p IH]; [done|].
  simpl. rewrite IH. by destruct (p ++ String d EmptyString)%string eqn:E; [destruct p|].
Qed.

Lemma str_drop_last_snoc (p : string) (d : ascii) :
  str_drop_last (p ++ String d EmptyString)%string = p.
Proof.
  induction p as [|c p IH]; [done|].
  simpl. rewrite IH. by destruct (p ++ String d EmptyString)%string eqn:E; [destruct p|].
Qed.

Lemma str_length_snoc (p : string) (d : ascii) :
  String.length (p ++ String d EmptyString)%string = S (String.length p).
Proof. induction p as [|c p IH]; simpl; congruence. Qed.

Lemma str_last_is_Some (s : string) :
  (1 <= String.length s)%nat → is_Some (str_last s).
Proof.
  induction s as [|c s IH]; simpl; [lia|]. intros _.
  destruct s; [by eexists|]. apply IH. simpl. lia.
Qed.

(** ** The pitch resolver *)

Ltac run_M :=
  unfold try_except_ValueError_IndexError, str_getitem_last, int_of_char,
    print, raise, mbind, M_bind, mret, M_ret.

Lemma clamp_range (v : Z) : 0 ≤ clamp v ≤ 127.
Proof. unfold clamp. lia. Qed.

Lemma with_lines_nil (out : stdout) : with_lines out [] = out.
Proof. destruct out. unfold with_lines. simpl. by rewrite app_nil_r. Qed.

(** What the resolver does on any token and any standard output: it
    returns [pitch_of], having printed its warning if there is one, unless
    standard output cannot encode the warning; then the [print] of the
    handler raises. *)
Lemma note_name_to_midi_exact (self : MidiConverter) (t : string) out :
  note_name_to_midi self t out
  = match print_error out t with
    | None => (Ok (pitch_of self t), with_lines out (warning_of t))
    | Some msg => (Raise (UnicodeEncodeError msg), out)
    end.
Proof.
  unfold note_name_to_midi, pitch_of, print_error, warning_of, warns.
  destruct (String.eqb t EmptyString || String.eqb t "rest") eqn:Hrest; simpl.
  { by rewrite with_lines_nil. }
  destruct (len_str t <? 2) eqn:Hlen; simpl.
  { by rewrite with_lines_nil. }
  destruct (str_last_is_Some t) as [c Hc].
  { apply Z.ltb_ge in Hlen. unfold len_str in Hlen. lia. }
  run_M. rewrite Hc.
  destruct (isdigit c), (is_decimal c); simpl; rewrite ?with_lines_nil; try done.
  by destruct (encode_error out _).
Qed.

Lemma print_error_quiet (t : string) out : warns t = false → print_error out t = None.
Proof. intros Hw. unfold print_error, warning_of. by rewrite Hw. Qed.

(** On a token without a warning the resolver returns and leaves
    standard output as it is. *)
Lemma note_name_to_midi_quiet (self : MidiConverter) (t : string) out :
  warns t = false → note_name_to_midi self t out = (Ok (pitch_of self t), out).
Proof.
  intros Hw. rewrite note_name_to_midi_exact, print_error_quiet by done.
  unfold warning_of. by rewrite Hw, with_lines_nil.
Qed.

(** Whenever the resolver returns, it returns [pitch_of]. *)
Lemma note_name_to_midi_Ok (self : MidiConverter) (t : string) out v out' :
  note_name_to_midi self t out = (Ok v, out') → v = pitch_of self t.
Proof.
  rewrite note_name_to_midi_exact. destruct (print_error out t); [done|].
  by injection 1 as <- _.
Qed.

Section Resolver.
Variable self : MidiConverter.
Hypothesis notes_range : map_Forall (λ _ v, 0 ≤ v ≤ 127) (notes self).

Lemma dict_get_notes_range (k : string) :
  0 ≤ dict_get (notes self) k 60 ≤ 127.
Proof.
  unfold dict_get. destruct (notes self !! k) as [v|] eqn:E; simpl; [|lia].
  by apply (notes_range k v).
Qed.

Lemma pitch_of_range (t : string) : 0 ≤ pitch_of self t ≤ 127.
Proof.
  unfold pitch_of.
  destruct (String.eqb t EmptyString || String.eqb t "rest"); [lia|].
  destruct (len_str t <? 2); [apply dict_get_notes_range|].
  destruct (str_last t) as [c|]; [|lia].
  destruct (isdigit c); [destruct (is_decimal c)|];
    first [apply clamp_range | lia].
Qed.
End Resolver.

Lemma notes_init_range :
  map_Forall (λ _ v, 0 ≤ v ≤ 127) (notes MidiConverter_init).
Proof.
  simpl. repeat (apply map_Forall_insert_2; [lia|]). apply map_Forall_empty.
Qed.

(** C1: the resolver does not return on every token.  Whenever it
    returns, the value lies in 0..127; but on a token of two characters or
    more that ends in a digit that [int] does not parse (a superscript),
    the handler prints its warning, and that [print] raises
    UnicodeEncodeError out of the resolver when standard output cannot
    encode the line.  This is the only exception that leaves it.  With
    standard output in ASCII it happens on the token made of "D" and
    U+00B2. *)
Theorem note_name_to_midi_print_raises :
  (∀ t out,
     match note_name_to_midi MidiConverter_init t out with
     | (Ok v, _) => 0 ≤ v ≤ 127
     | (Raise e, out') =>
         ∃ line msg, warning_of t = [line] ∧ encode_error out line = Some msg
                     ∧ e = UnicodeEncodeError msg ∧ out' = out
     end)
  ∧ note_name_to_midi MidiConverter_init
      (String "D" (String (ascii_of_nat 178) EmptyString)) ascii_stdout
    = (Raise (UnicodeEncodeError
                "'ascii' codec can't encode character '\xb2' in position 32: ordinal not in range(128)"),
       ascii_stdout).
Proof.
  split; [|reflexivity]. intros t out. rewrite note_name_to_midi_exact.
  unfold print_error.
  destruct (warning_of t) as [|line ls] eqn:Hw.
  { apply pitch_of_range, notes_init_range. }
  destruct (encode_error out line) as [msg|] eqn:E.
  - exists line, msg. split_and!; [|done..].
    rewrite <- Hw. unfold warning_of in *. destruct (warns t); [|done].
    destruct (str_last t); [|done]. by injection Hw as <- <-.
  - apply pitch_of_range, notes_init_range.
Qed.

(** A superscript digit passes [isdigit] and fails [int]: the handler
    prints its warning and the resolver returns 60. *)
Example note_name_to_midi_superscript :
  note_name_to_midi MidiConverter_init (String "D" (String (ascii_of_nat 178) EmptyString)) []
  = (Ok 60,
     [("Warning: Could not parse note '" ++ String "D" (String (ascii_of_nat 178) EmptyString) ++
       "', using default. Error: invalid literal for int() with base 10: '" ++
       String (ascii_of_nat 178) "'")%string]).
Proof. reflexivity. Qed.

Lemma snoc_not_rest (p : string) (d : ascii) :
  is_decimal d = true →
  String.eqb (p ++ String d EmptyString) EmptyString || String.eqb (p ++ String d EmptyString) "rest" = false.
Proof.
  intros Hd. apply orb_false_intro; apply String.eqb_neq; intros E.
  - apply (f_equal String.length) in E. rewrite str_length_snoc in E. discriminate.
  - apply (f_equal str_last) in E. rewrite str_last_snoc in E.
    injection E as ->. discriminate.
Qed.

Lemma snoc_long (p : string) (d : ascii) :
  p ≠ EmptyString → (len_str (p ++ String d EmptyString) <? 2) = false.
Proof.
  intros Hp. apply Z.ltb_ge. unfold len_str. rewrite str_length_snoc.
  destruct p; [done|]. simpl. lia.
Qed.

Lemma note_name_to_midi_snoc (self : MidiConverter) (p : string) (d : ascii) :
  p ≠ EmptyString → is_decimal d = true →
  pitch_of self (p ++ String d EmptyString)
  = clamp (dict_get (notes self) p 60 + (digit_value d - 4) * 12).
Proof.
  intros Hp Hd. unfold pitch_of.
  rewrite (snoc_not_rest p d Hd), (snoc_long p d Hp), str_last_snoc.
  unfold isdigit. rewrite Hd. simpl. by rewrite str_drop_last_snoc.
Qed.

Lemma warns_snoc (p : string) (d : ascii) :
  is_decimal d = true → warns (p ++ String d EmptyString) = false.
Proof.
  intros Hd. unfold warns. rewrite str_last_snoc, Hd. simpl.
  by rewrite !andb_false_r.
Qed.

(** C2, as the code has it: "D4" is 62, "D5" is 74, "Bb1" is 34 (70 and
    three octaves down), "rest" and the empty token are 60. *)
Theorem note_name_to_midi_examples :
  returns (note_name_to_midi MidiConverter_init "D4") 62 ∧
  returns (note_name_to_midi MidiConverter_init "D5") 74 ∧
  returns (note_name_to_midi MidiConverter_init "Bb1") 34 ∧
  returns (note_name_to_midi MidiConverter_init "rest") 60 ∧
  returns (note_name_to_midi MidiConverter_init EmptyString) 60.
Proof. repeat split; intros out; by exists out. Qed.

(** C2 fails as stated: the resolver gives 34 on "Bb1", not 46. *)
Lemma note_name_to_midi_Bb1_not_46 :
  note_name_to_midi MidiConverter_init "Bb1" [] = (Ok 34, []) ∧
  ¬ returns (note_name_to_midi MidiConverter_init "Bb1") 46.
Proof.
  split; [reflexivity|]. intros H.
  destruct (H []) as [out' E]. vm_compute in E. discriminate.
Qed.

(** C9: only the last character is the octave.  For a token made of a
    non-empty prefix [p] and one decimal digit [d], the resolver looks up
    [p] as the note name (60 when it is not in the table) and moves it
    by [d - 4] octaves, clamped to 0..127; so "C10" is the unknown name
    "C1" in octave 0, that is 60 - 48 = 12. *)
Theorem note_name_to_midi_last_char_octave (p : string) (d : ascii) :
  p ≠ EmptyString → is_decimal d = true →
  returns (note_name_to_midi MidiConverter_init (p ++ String d EmptyString))
    (clamp (dict_get (notes MidiConverter_init) p 60 + (digit_value d - 4) * 12))
  ∧ notes MidiConverter_init !! "C1" = None
  ∧ returns (note_name_to_midi MidiConverter_init "C10") 12.
Proof.
  intros Hp Hd. split; [|split; [reflexivity | intros out; by exists out]].
  intros out. exists out.
  rewrite note_name_to_midi_quiet by by apply warns_snoc.
  by rewrite note_name_to_midi_snoc.
Qed.

Lemma note_name_to_midi_last_char_octave_witness :
  "C1" ≠ EmptyString ∧ is_decimal "0" = true ∧
  returns (note_name_to_midi MidiConverter_init ("C1" ++ String "0" EmptyString))
    (clamp (dict_get (notes MidiConverter_init) "C1" 60
            + (digit_value "0" - 4) * 12)).
Proof.
  split; [discriminate|]. split; [reflexivity|].
  apply (note_name_to_midi_last_char_octave "C1" "0"); [discriminate | reflexivity].
Defined.

(** ** Building messages, indexing the rhythm *)

Lemma Message_note_on_returns (c n v t : Z) :
  channel_ok c = true → data_byte n = true → data_byte v = true →
  returns (Message_note_on c n v t) (note_on c n v t).
Proof.
  intros Hc Hn Hv out. exists out. unfold Message_note_on.
  by rewrite Hc, Hn, Hv.
Qed.

Lemma Message_note_off_returns (c n v t : Z) :
  channel_ok c = true → data_byte n = true → data_byte v = true →
  returns (Message_note_off c n v t) (note_off c n v t).
Proof.
  intros Hc Hn Hv out. exists out. unfold Message_note_off.
  by rewrite Hc, Hn, Hv.
Qed.

Lemma Message_note_on_inv (c n v t : Z) out m out' :
  Message_note_on c n v t out = (Ok m, out') → m = note_on c n v t.
Proof.
  unfold Message_note_on.
  destruct (negb (channel_ok c)); [discriminate|].
  destruct (negb (data_byte n && data_byte v)); [discriminate|].
  by injection 1 as <- _.
Qed.

Lemma Message_note_off_inv (c n v t : Z) out m out' :
  Message_note_off c n v t out = (Ok m, out') → m = note_off c n v t.
Proof.
  unfold Message_note_off.
  destruct (negb (channel_ok c)); [discriminate|].
  destruct (negb (data_byte n && data_byte v)); [discriminate|].
  by injection 1 as <- _.
Qed.

Lemma data_byte_spec (v : Z) : data_byte v = true ↔ 0 ≤ v ≤ 127.
Proof. unfold data_byte. rewrite andb_true_iff, !Z.leb_le. done. Qed.

Lemma py_mod_returns (a b : Z) : b ≠ 0 → returns (py_mod a b) (a mod b).
Proof.
  intros Hb out. exists out. unfold py_mod.
  by destruct (Z.eqb_spec b 0).
Qed.

Lemma py_mod_inv (a b : Z) out k out' :
  py_mod a b out = (Ok k, out') → b ≠ 0 ∧ k = a mod b.
Proof.
  unfold py_mod. destruct (Z.eqb_spec b 0); [discriminate|].
  by injection 1 as <- _.
Qed.

Lemma mod_index (l : list Q) (j : nat) :
  l ≠ [] → Z.of_nat j mod len l = Z.of_nat (j mod length l).
Proof.
  intros Hl. unfold len. rewrite Nat2Z.inj_mod. done.
Qed.

Lemma list_getitem_beat (rhythm : list Q) (j : nat) :
  rhythm ≠ [] →
  returns (list_getitem rhythm (Z.of_nat j mod len rhythm)) (beat_at rhythm j).
Proof.
  intros Hl out. exists out. rewrite mod_index by done.
  unfold list_getitem, beat_at.
  assert (j mod length rhythm < length rhythm)%nat as Hlt.
  { apply Nat.mod_upper_bound. by destruct rhythm. }
  assert ((Z.of_nat (j mod length rhythm) <? 0) = false) as Hk
    by (apply Z.ltb_ge; lia).
  cbv zeta. rewrite !Hk, Nat2Z.id.
  destruct (lookup_lt_is_Some_2 rhythm _ Hlt) as [x Hx]. rewrite Hx.
  by rewrite (nth_lookup_Some _ _ 0%Q _ Hx).
Qed.

(** Reading the rhythm for the token at position [j]. *)
Lemma rhythm_read_inv (rhythm : list Q) (j : nat) out k out1 b out2 :
  py_mod (Z.of_nat j) (len rhythm) out = (Ok k, out1) →
  list_getitem rhythm k out1 = (Ok b, out2) →
  rhythm ≠ [] ∧ b = beat_at rhythm j.
Proof.
  intros Hk Hb. apply py_mod_inv in Hk as [Hlen ->].
  assert (rhythm ≠ []) as Hne by (intros ->; by apply Hlen).
  split; [done|].
  by apply (returns_Ok _ _ _ _ _ (list_getitem_beat rhythm j Hne)) in Hb.
Qed.

(** ** Streams of begin/end pairs *)

Lemma paired_app (evs evs' : list Message) :
  paired evs → paired evs' → paired (evs ++ evs').
Proof.
  revert evs. fix IH 1. intros [|m [|m' evs]]; simpl; [done| |].
  - by destruct m.
  - destruct m; [|done]. destruct m'; [done|].
    intros (-> & -> & H) H'. repeat split. by apply IH.
Qed.

Lemma paired_counts (evs : list Message) :
  paired evs → count_msgs is_note_on evs = count_msgs is_note_off evs.
Proof.
  revert evs. fix IH 1. intros [|m [|m' evs]]; simpl; [done| |].
  - by destruct m.
  - destruct m; [|done]. destruct m'; [done|].
    intros (_ & _ & H). unfold count_msgs in *. simpl. f_equal. by apply IH.
Qed.

Lemma total_time_app (evs evs' : list Message) :
  total_time (evs ++ evs') = total_time evs + total_time evs'.
Proof.
  unfold total_time. induction evs as [|m evs IH]; simpl; [done|].
  rewrite IH. lia.
Qed.

(** ** Melody and bass *)

Lemma beats_from_S (rhythm : list Q) (j n : nat) :
  beats_from rhythm j (S n) = beat_at rhythm j :: beats_from rhythm (S j) n.
Proof. done. Qed.

Ltac bind_inv H :=
  let a := fresh "a" in let o := fresh "out" in let E := fresh "E" in
  apply bind_inv in H as (a & o & E & H).

Section Lines.
Variable self : MidiConverter.

(** What the melody loop leaves when it returns: begin/end pairs, whose
    delta-times, with the time still pending, add up to the time
    pending at entry and the ticks of the durations read. *)
Lemma melody_loop_inv (rhythm : list Q) (velocity : Z) (melody : list string) :
  ∀ (j : nat) track ct out track' ct' out',
    melody_loop self rhythm velocity melody (Z.of_nat j) track ct out
      = (Ok (track', ct'), out') →
    ∃ evs, track' = track ++ evs ∧ paired evs ∧
      total_time evs + ct'
      = ct + Zsum (map (beats_to_ticks self) (beats_from rhythm j (length melody))).
Proof.
  induction melody as [|name melody IH]; intros j track ct out track' ct' out' H.
  - injection H as <- <- _. exists []. rewrite app_nil_r.
    split_and!; [done..|]. unfold beats_from, total_time. simpl. lia.
  - simpl in H. replace (Z.of_nat j + 1) with (Z.of_nat (S j)) in H by lia.
    simpl length. rewrite beats_from_S.
    destruct (String.eqb name "rest").
    + bind_inv H. bind_inv H.
      destruct (rhythm_read_inv _ _ _ _ _ _ _ E E0) as [_ ->].
      apply IH in H as (evs & -> & Hp & Ht). exists evs.
      split_and!; [done..|]. simpl. lia.
    + bind_inv H. bind_inv H. bind_inv H.
      destruct (rhythm_read_inv _ _ _ _ _ _ _ E0 E1) as [_ ->].
      bind_inv H. apply Message_note_on_inv in E2 as ->.
      bind_inv H. apply Message_note_off_inv in E2 as ->.
      apply IH in H as (evs & -> & Hp & Ht).
      eexists (_ :: _ :: evs). rewrite <- !app_assoc. split_and!; [done..|].
      simpl. unfold total_time in *. simpl. lia.
Qed.

Lemma bass_loop_inv (velocity : Z) (beats : Q) (bass : list string) :
  ∀ track ct out track' ct' out',
    bass_loop self velocity beats bass track ct out = (Ok (track', ct'), out') →
    ∃ evs, track' = track ++ evs ∧ paired evs ∧
      total_time evs + ct'
      = ct + Z.of_nat (length bass) * beats_to_ticks self beats.
Proof.
  induction bass as [|name bass IH]; intros track ct out track' ct' out' H.
  - injection H as <- <- _. exists []. rewrite app_nil_r.
    split_and!; [done..|]. unfold total_time. simpl. lia.
  - simpl in H. bind_inv H.
    bind_inv H. apply Message_note_on_inv in E0 as ->.
    bind_inv H. apply Message_note_off_inv in E0 as ->.
    apply IH in H as (evs & -> & Hp & Ht).
    eexists (_ :: _ :: evs). rewrite <- !app_assoc. split_and!; [done..|].
    unfold total_time in *. simpl length. simpl foldr. lia.
Qed.

(** Without rests no time is left pending after the last token. *)
Lemma melody_loop_no_rest_pending (rhythm : list Q) (velocity : Z)
    (melody : list string) :
  Forall (λ n, String.eqb n "rest" = false) melody →
  ∀ i track ct out track' ct' out',
    melody_loop self rhythm velocity melody i track ct out
      = (Ok (track', ct'), out') →
    ct' = match melody with [] => ct | _ => 0 end.
Proof.
  induction 1 as [|name melody Hn Hm IH]; intros i track ct out track' ct' out' H.
  - by injection H as _ <- _.
  - simpl in H. rewrite Hn in H. do 5 bind_inv H.
    apply IH in H. by destruct melody.
Qed.

Hypothesis notes_range : map_Forall (λ _ v, 0 ≤ v ≤ 127) (notes self).

Lemma note_name_to_midi_byte (name : string) :
  warns name = false →
  ∃ v, returns (note_name_to_midi self name) v ∧ data_byte v = true.
Proof.
  intros Hw. exists (pitch_of self name). split.
  - intros out. exists out. by apply note_name_to_midi_quiet.
  - apply data_byte_spec, pitch_of_range, notes_range.
Qed.

(** With a rhythm to read, a velocity that is a data byte and tokens
    without a warning, the melody loop returns. *)
Lemma melody_loop_returns (rhythm : list Q) (velocity : Z) (melody : list string) :
  rhythm ≠ [] → data_byte velocity = true →
  Forall (λ t, warns t = false) melody →
  ∀ (j : nat) track ct,
    ∃ res, returns (melody_loop self rhythm velocity melody (Z.of_nat j) track ct) res.
Proof.
  intros Hr Hv Hq. induction Hq as [|name melody Hw Hq IH]; intros j track ct.
  - eexists. apply returns_ret.
  - simpl. replace (Z.of_nat j + 1) with (Z.of_nat (S j)) by lia.
    assert (len rhythm ≠ 0) as Hlen by (unfold len; destruct rhythm; [done|simpl; lia]).
    destruct (String.eqb name "rest").
    + edestruct IH as [res Hres]. exists res.
      eapply returns_bind; [by apply py_mod_returns|].
      eapply returns_bind; [by apply list_getitem_beat|]. apply Hres.
    + destruct (note_name_to_midi_byte name Hw) as (v & Hret & Hb).
      edestruct IH as [res Hres]. exists res.
      eapply returns_bind; [apply Hret|].
      eapply returns_bind; [by apply py_mod_returns|].
      eapply returns_bind; [by apply list_getitem_beat|].
      eapply returns_bind; [by apply Message_note_on_returns|].
      eapply returns_bind; [by apply Message_note_off_returns|]. apply Hres.
Qed.

Lemma bass_loop_returns (velocity : Z) (beats : Q) (bass : list string) :
  data_byte velocity = true → Forall (λ t, warns t = false) bass →
  ∀ track ct, ∃ res, returns (bass_loop self velocity beats bass track ct) res.
Proof.
  intros Hv Hq. induction Hq as [|name bass Hw Hq IH]; intros track ct.
  - eexists. apply returns_ret.
  - simpl. destruct (note_name_to_midi_byte name Hw) as (v & Hret & Hb).
    edestruct IH as [res Hres]. exists res.
    eapply returns_bind; [apply Hret|].
    eapply returns_bind; [by apply Message_note_on_returns|].
    eapply returns_bind; [by apply Message_note_off_returns|]. apply Hres.
Qed.

(** [add_melody] on good arguments: it returns the track with the new
    events appended, in begin/end pairs. *)
Lemma add_melody_returns track melody rhythm velocity time_offset :
  rhythm ≠ [] → data_byte velocity = true →
  Forall (λ t, warns t = false) melody →
  ∃ evs, returns (add_melody self track melody rhythm velocity time_offset)
           (track ++ evs) ∧ paired evs.
Proof.
  intros Hr Hv Hq.
  destruct (melody_loop_returns rhythm velocity melody Hr Hv Hq 0%nat track
              time_offset) as [[track' ct'] Hres].
  destruct (Hres []) as [out' E].
  apply melody_loop_inv in E as (evs & -> & Hp & _).
  exists evs. split; [|done]. unfold add_melody.
  eapply returns_bind; [apply Hres|]. apply returns_ret.
Qed.

Lemma add_bass_line_returns track bass velocity time_offset :
  data_byte velocity = true → Forall (λ t, warns t = false) bass →
  ∃ evs, returns (add_bass_line self track bass velocity time_offset)
           (track ++ evs) ∧ paired evs.
Proof.
  intros Hv Hq.
  destruct (bass_loop_returns velocity 4%Q bass Hv Hq track time_offset)
    as [[track' ct'] Hres].
  destruct (Hres []) as [out' E].
  apply bass_loop_inv in E as (evs & -> & Hp & _).
  exists evs. split; [|done]. unfold add_bass_line.
  eapply returns_bind; [apply Hres|]. apply returns_ret.
Qed.

(** [add_melody] from offset 0 on a melody without rests: the
    delta-times add up to the ticks of the durations read. *)
Lemma add_melody_no_rest track melody rhythm velocity :
  rhythm ≠ [] → data_byte velocity = true →
  Forall (λ t, warns t = false) melody →
  Forall (λ n, String.eqb n "rest" = false) melody →
  ∃ evs, returns (add_melody self track melody rhythm velocity 0) (track ++ evs)
         ∧ total_time evs
           = Zsum (map (beats_to_ticks self) (beats_from rhythm 0 (length melody))).
Proof.
  intros Hr Hv Hq Hm.
  destruct (melody_loop_returns rhythm velocity melody Hr Hv Hq 0%nat track 0)
    as [[track' ct'] Hres].
  destruct (Hres []) as [out' E].
  pose proof (melody_loop_no_rest_pending _ _ _ Hm _ _ _ _ _ _ _ E) as Hct.
  apply melody_loop_inv in E as (evs & -> & _ & Ht).
  exists evs. split.
  - unfold add_melody. eapply returns_bind; [apply Hres|]. apply returns_ret.
  - destruct melody; lia.
Qed.
End Lines.

(** ** Chords *)

Lemma chord_ons_zero (velocity : Z) (ps : list Z) :
  chord_ons velocity 0 ps = map (λ n, note_on 0 n velocity 0) ps.
Proof. by destruct ps. Qed.

Lemma chord_offs_zero (ps : list Z) :
  chord_offs 0 ps = map (λ n, note_off 0 n 0 0) ps.
Proof. by destruct ps. Qed.

Lemma chord_notes_on_returns (ps : list Z) (velocity : Z) :
  Forall (λ p, data_byte p = true) ps → data_byte velocity = true →
  ∀ track ct, ∃ ct',
    returns (chord_notes_on ps velocity track ct)
      (track ++ chord_ons velocity ct ps, ct').
Proof.
  intros Hps Hv. induction Hps as [|p ps Hp Hps IH]; intros track ct.
  - exists ct. simpl. rewrite app_nil_r. apply returns_ret.
  - destruct (IH (track ++ [note_on 0 p velocity ct]) 0) as [ct' Hret].
    exists ct'. simpl.
    eapply returns_bind; [by apply Message_note_on_returns|].
    rewrite chord_ons_zero, <- app_assoc in Hret. exact Hret.
Qed.

Lemma chord_notes_off_returns (ps : list Z) :
  Forall (λ p, data_byte p = true) ps →
  ∀ track hold, ∃ hold',
    returns (chord_notes_off ps track hold) (track ++ chord_offs hold ps, hold').
Proof.
  intros Hps. induction Hps as [|p ps Hp Hps IH]; intros track hold.
  - exists hold. simpl. rewrite app_nil_r. apply returns_ret.
  - destruct (IH (track ++ [note_off 0 p 0 hold]) 0) as [hold' Hret].
    exists hold'. simpl.
    eapply returns_bind; [by apply Message_note_off_returns|].
    rewrite chord_offs_zero, <- app_assoc in Hret. exact Hret.
Qed.

Lemma begins_for_chord_ons (velocity ct : Z) (ps : list Z) :
  begins_for ps (chord_ons velocity ct ps).
Proof.
  destruct ps as [|p ps]; [constructor|]. constructor; [by eauto|].
  induction ps; constructor; eauto.
Qed.

Lemma ends_for_chord_offs (hold : Z) (ps : list Z) :
  ends_for ps (chord_offs hold ps).
Proof.
  destruct ps as [|p ps]; [constructor|]. constructor; [by eauto|].
  induction ps; constructor; eauto.
Qed.

Lemma total_time_map_zero (f : Z → Message) (ps : list Z) :
  (∀ n, msg_time (f n) = 0) → total_time (map f ps) = 0.
Proof.
  intros Hf. unfold total_time. induction ps as [|p ps IH]; simpl; [done|].
  rewrite IH, Hf. done.
Qed.

Lemma total_time_chord_block (velocity hold ct p : Z) (ps : list Z) :
  total_time (chord_block velocity hold ct (p :: ps)) = ct + hold.
Proof.
  unfold chord_block. rewrite total_time_app. simpl.
  change (total_time (?m :: ?l)) with (msg_time m + total_time l).
  rewrite !total_time_map_zero by done. simpl. lia.
Qed.

Section Chords.
Variable self : MidiConverter.
Variables velocity hold : Z.

Lemma chord_blocks_length (chord_sequence : list string) (ct : Z) :
  length (chord_blocks self velocity hold chord_sequence ct)
  = length chord_sequence.
Proof.
  revert ct. induction chord_sequence as [|c l IH]; intros ct; simpl; [done|].
  destruct (chords self !! c); simpl; by rewrite IH.
Qed.

(** Block [i] is what chord [i] contributes. *)
Lemma chord_blocks_contribution (chord_sequence : list string) (ct : Z)
    (i : nat) (c : string) :
  chord_sequence !! i = Some c →
  ∃ block, chord_blocks self velocity hold chord_sequence ct !! i = Some block
           ∧ chord_contribution self c block.
Proof.
  revert ct i. induction chord_sequence as [|c' l IH]; intros ct i; [done|].
  destruct i as [|i]; simpl.
  - injection 1 as ->. unfold chord_contribution.
    destruct (chords self !! c) as [ps|]; eexists; (split; [done|]); [|done].
    exists (chord_ons velocity ct ps), (chord_offs hold ps).
    split_and!; [done | apply begins_for_chord_ons | apply ends_for_chord_offs].
  - intros Hi. destruct (chords self !! c'); simpl; by apply IH.
Qed.

(** An unknown chord leaves the loop state, track and pending time,
    as it found it. *)
Lemma chord_loop_skip (beats : Q) (c : string) (rest : list string)
    (track : list Message) (ct : Z) :
  chords self !! c = None →
  chord_loop self velocity beats (c :: rest) track ct
  = chord_loop self velocity beats rest track ct.
Proof. intros H. simpl. by rewrite H. Qed.

Lemma count_known_unknown (chord_sequence : list string) :
  (count_known self chord_sequence + count_unknown self chord_sequence
   = length chord_sequence)%nat.
Proof.
  unfold count_known, count_unknown.
  induction chord_sequence as [|c l IH]; simpl; [done|].
  destruct (known_chord self c); simpl; lia.
Qed.

Lemma known_chord_Some (c : string) (ps : list Z) :
  chords self !! c = Some ps → known_chord self c = true.
Proof. intros H. unfold known_chord. apply bool_decide_eq_true. by eexists. Qed.

Lemma known_chord_None (c : string) :
  chords self !! c = None → known_chord self c = false.
Proof.
  intros H. unfold known_chord. apply bool_decide_eq_false.
  rewrite H. by intros [? ?].
Qed.

(** The pending time reaches the first begin of the first known chord. *)
Lemma chord_blocks_first (us : list string) (c : string) (rest : list string)
    (ct p : Z) (ps : list Z) :
  Forall (λ u, chords self !! u = None) us →
  chords self !! c = Some (p :: ps) →
  ∃ evs, concat (chord_blocks self velocity hold (us ++ c :: rest) ct)
         = note_on 0 p velocity ct :: evs.
Proof.
  intros Hus Hc. induction Hus as [|u us Hu Hus IH]; simpl.
  - rewrite Hc. simpl. by eexists.
  - by rewrite Hu.
Qed.

Hypothesis chords_nonempty : map_Forall (λ _ ps, ps ≠ []) (chords self).

(** Each known chord adds its hold time and nothing else, but for the
    first, which also carries the pending time. *)
Lemma chord_blocks_total_time (chord_sequence : list string) (ct : Z) :
  total_time (concat (chord_blocks self velocity hold chord_sequence ct))
  = (if existsb (known_chord self) chord_sequence then ct else 0)
    + hold * Z.of_nat (count_known self chord_sequence).
Proof.
  revert ct. unfold count_known.
  induction chord_sequence as [|c l IH]; intros ct; simpl; [lia|].
  destruct (chords self !! c) as [ps|] eqn:E.
  - rewrite (known_chord_Some _ _ E). simpl.
    destruct ps as [|p ps]; [by apply chords_nonempty in E|].
    rewrite total_time_app, total_time_chord_block, IH.
    destruct (existsb (known_chord self) l); lia.
  - rewrite (known_chord_None _ E). simpl. apply IH.
Qed.

Hypothesis chords_bytes :
  map_Forall (λ _ ps, Forall (λ p, data_byte p = true) ps) (chords self).
Hypothesis velocity_byte : data_byte velocity = true.

Lemma chord_loop_returns (beats : Q) (chord_sequence : list string) :
  hold = beats_to_ticks self beats →
  ∀ track ct, ∃ ct',
    returns (chord_loop self velocity beats chord_sequence track ct)
      (track ++ concat (chord_blocks self velocity hold chord_sequence ct), ct').
Proof.
  intros ->. induction chord_sequence as [|c l IH]; intros track ct.
  - exists ct. simpl. rewrite app_nil_r. apply returns_ret.
  - simpl. destruct (chords self !! c) as [ps|] eqn:E.
    + pose proof (chords_bytes c ps E) as Hps.
      destruct (chord_notes_on_returns ps velocity Hps velocity_byte track ct)
        as [ct1 H1].
      destruct (chord_notes_off_returns ps Hps
                  (track ++ chord_ons velocity ct ps)
                  (beats_to_ticks self beats)) as [h1 H2].
      destruct (IH ((track ++ chord_ons velocity ct ps)
                      ++ chord_offs (beats_to_ticks self beats) ps) 0)
        as [ct' H3].
      exists ct'. eapply returns_bind; [apply H1|].
      eapply returns_bind; [apply H2|].
      unfold chord_block. simpl. rewrite !app_assoc. exact H3.
    + simpl. apply IH.
Qed.
End Chords.

(** ** The chord sequence of a section *)

Section Cycle.
Context {A : Type}.
Implicit Types l : list A.

Lemma length_concat_replicate l (n : nat) :
  length (concat (replicate n l)) = (n * length l)%nat.
Proof. induction n as [|n IH]; simpl; [done|]. rewrite length_app, IH. done. Qed.

Lemma lookup_concat_replicate l (n i : nat) :
  (i < n * length l)%nat →
  concat (replicate n l) !! i = l !! (i mod length l)%nat.
Proof.
  revert i. induction n as [|n IH]; intros i Hi; simpl in *; [lia|].
  destruct (decide (i < length l)%nat) as [Hlt|Hge].
  - rewrite lookup_app_l by done. by rewrite Nat.mod_small.
  - rewrite lookup_app_r by lia. rewrite IH by lia. f_equal.
    replace i with ((i - length l) + 1 * length l)%nat at 2 by lia.
    by rewrite Nat.Div0.mod_add.
Qed.

Lemma list_mul_nonpos l (n : Z) : n ≤ 0 → list_mul l n = [].
Proof. intros Hn. unfold list_mul. by replace (Z.to_nat n) with 0%nat by lia. Qed.

(** [(l * (bars // len(l) + 1))[:bars]] has [bars] elements, those of
    [l] taken cyclically (none when [bars] is negative). *)
Lemma cyclic_slice l (bars : Z) :
  l ≠ [] →
  let s := list_slice_to (list_mul l (bars / len l + 1)) bars in
  length s = Z.to_nat bars ∧
  ∀ i, (i < Z.to_nat bars)%nat → s !! i = l !! (i mod length l)%nat.
Proof.
  intros Hl. assert (0 < len l) as Hlen.
  { unfold len. destruct l; [done|]. simpl. lia. }
  simpl. unfold list_slice_to. destruct (Z.ltb_spec bars 0) as [Hneg|Hpos].
  - rewrite list_mul_nonpos, take_nil.
    + split; [simpl; lia|]. intros i Hi. lia.
    + assert (bars / len l < 0) by (apply Z.div_lt_upper_bound; lia). lia.
  - pose proof (Z.mul_succ_div_gt bars (len l) Hlen) as Hgt.
    assert (0 ≤ bars / len l) as Hq by (apply Z.div_pos; lia).
    assert (Z.to_nat bars < Z.to_nat (bars / len l + 1) * length l)%nat as Hn.
    { unfold len in *. nia. }
    unfold list_mul. split.
    + rewrite length_take_le; [done|]. rewrite length_concat_replicate. lia.
    + intros i Hi. rewrite lookup_take_lt by done.
      apply lookup_concat_replicate. lia.
Qed.
End Cycle.

Lemma chord_sequence_of_returns (chord_names : list string) (bars : Z) :
  chord_names ≠ [] →
  ∃ chord_sequence,
    returns (chord_sequence_of chord_names bars) chord_sequence ∧
    length chord_sequence = Z.to_nat bars ∧
    ∀ i, (i < Z.to_nat bars)%nat →
         chord_sequence !! i = chord_names !! (i mod length chord_names)%nat.
Proof.
  intros Hne. eexists. split; [|by apply cyclic_slice].
  intros out. exists out. unfold chord_sequence_of, floordiv.
  destruct (Z.eqb_spec (len chord_names) 0) as [E|_]; [|done].
  unfold len in E. destruct chord_names; [done|]. simpl in E. lia.
Qed.

Lemma chord_sequence_of_empty (bars : Z) :
  raises (chord_sequence_of [] bars) ZeroDivisionError.
Proof. intros out. by exists out. Qed.

(** ** The converter that [__init__] builds *)

Lemma chords_init_bytes :
  map_Forall (λ _ ps, Forall (λ p, data_byte p = true) ps)
    (chords MidiConverter_init).
Proof.
  simpl. repeat (apply map_Forall_insert_2; [by repeat constructor|]).
  apply map_Forall_empty.
Qed.

Lemma chords_init_nonempty :
  map_Forall (λ _ ps, ps ≠ []) (chords MidiConverter_init).
Proof.
  simpl. repeat (apply map_Forall_insert_2; [done|]). apply map_Forall_empty.
Qed.

Lemma whole_note_ticks : beats_to_ticks MidiConverter_init 4 = 1920.
Proof. reflexivity. Qed.

Lemma add_chord_progression_returns track chord_names bars velocity time_offset
    chord_sequence :
  returns (chord_sequence_of chord_names bars) chord_sequence →
  data_byte velocity = true →
  returns
    (add_chord_progression MidiConverter_init track chord_names bars velocity
       time_offset)
    (track ++ concat (chord_blocks MidiConverter_init velocity 1920
                        chord_sequence time_offset)).
Proof.
  intros Hseq Hv.
  destruct (chord_loop_returns MidiConverter_init velocity 1920
              chords_init_bytes Hv 4%Q chord_sequence (eq_sym whole_note_ticks)
              track time_offset) as [ct' Hloop].
  unfold add_chord_progression.
  eapply returns_bind; [apply Hseq|].
  eapply returns_bind; [apply Hloop|]. apply returns_ret.
Qed.

Lemma section_data_checked :
  map_Forall (λ _ sd, melody_checked MidiConverter_init sd = true) section_data.
Proof.
  unfold section_data. simpl list_to_map.
  repeat (apply map_Forall_insert_2; [by vm_compute|]). apply map_Forall_empty.
Qed.

Lemma create_section_returns :
  ∃ intro, section_data !! "intro" = Some intro ∧
    ∀ name bars start,
      returns (create_section MidiConverter_init name bars start)
        (dict_get section_data name intro).
Proof.
  destruct (section_data !! "intro") as [intro|] eqn:E; [|by vm_compute in E].
  exists intro. split; [done|]. intros name bars start out. exists out.
  unfold create_section, dict_getitem. by rewrite E.
Qed.

Lemma section_data_quiet :
  map_Forall (λ _ sd, forallb (λ t, negb (warns t)) (s_melody sd) = true)
    section_data.
Proof.
  unfold section_data. simpl list_to_map.
  repeat (apply map_Forall_insert_2; [by vm_compute|]). apply map_Forall_empty.
Qed.

Lemma forallb_quiet (l : list string) :
  forallb (λ t, negb (warns t)) l = true → Forall (λ t, warns t = false) l.
Proof.
  rewrite forallb_forall. intros H. apply List.Forall_forall. intros t Ht.
  apply H in Ht. by apply negb_true_iff in Ht.
Qed.

Lemma create_section_checked (name : string) (bars start : Z) :
  ∃ sd, returns (create_section MidiConverter_init name bars start) sd
        ∧ melody_checked MidiConverter_init sd = true
        ∧ Forall (λ t, warns t = false) (s_melody sd).
Proof.
  destruct create_section_returns as (intro & Hintro & Hret).
  exists (dict_get section_data name intro). split; [apply Hret|].
  unfold dict_get. destruct (section_data !! name) as [sd|] eqn:E; simpl.
  - split; [by apply (section_data_checked name)|].
    by apply forallb_quiet, (section_data_quiet name).
  - split; [by apply (section_data_checked "intro")|].
    by apply forallb_quiet, (section_data_quiet "intro").
Qed.

Lemma melody_checked_spec (self : MidiConverter) (sd : SectionData) :
  melody_checked self sd = true →
  Forall (λ n, String.eqb n "rest" = false) (s_melody sd) ∧
  s_rhythm sd ≠ [] ∧
  inject_Z (Zsum (map (beats_to_ticks self)
                    (beats_from (s_rhythm sd) 0 (length (s_melody sd)))))
  == Qsum (beats_from (s_rhythm sd) 0 (length (s_melody sd)))
     * inject_Z (ticks_per_beat self) ∧
  Qsum (beats_from (s_rhythm sd) 0 (length (s_melody sd)))
  == inject_Z (len (s_melody sd) / len (s_rhythm sd)) * Qsum (s_rhythm sd).
Proof.
  unfold melody_checked. cbv zeta. rewrite !andb_true_iff, !Qeq_bool_iff.
  intros [[[Hm Hr] Ht] Hc]. split_and!; [| |done..].
  - rewrite forallb_forall in Hm. apply List.Forall_forall. intros n Hn.
    apply Hm in Hn. by destruct (String.eqb n "rest").
  - intros E. by rewrite E in Hr.
Qed.

(** C3, as the code has it: for every section name, the delta-times of
    the melody rendered from offset 0 add up to the durations read for
    its tokens, the rhythm being read cyclically, times the ticks per
    beat; that is the sum of the rhythm sequence times the ticks per beat,
    once for each time the melody runs through the rhythm. *)
Theorem section_melody_time (name : string) (bars velocity : Z) :
  data_byte velocity = true →
  ∃ sd evs,
    returns (create_section MidiConverter_init name bars 0) sd ∧
    returns (add_melody MidiConverter_init [] (s_melody sd) (s_rhythm sd)
               velocity 0) evs ∧
    inject_Z (total_time evs)
    == Qsum (beats_from (s_rhythm sd) 0 (length (s_melody sd)))
       * inject_Z (ticks_per_beat MidiConverter_init) ∧
    inject_Z (total_time evs)
    == inject_Z (len (s_melody sd) / len (s_rhythm sd))
       * (Qsum (s_rhythm sd) * inject_Z (ticks_per_beat MidiConverter_init)).
Proof.
  intros Hv.
  destruct (create_section_checked name bars 0) as (sd & Hsd & Hck & Hq).
  apply melody_checked_spec in Hck as (Hm & Hr & Ht & Hc).
  destruct (add_melody_no_rest MidiConverter_init notes_init_range []
              (s_melody sd) (s_rhythm sd) velocity Hr Hv Hq Hm)
    as (evs & Hret & Hsum).
  exists sd, evs. split_and!; [done..| |].
  - by rewrite Hsum.
  - rewrite Hsum, Ht, Hc. ring.
Qed.

Lemma section_melody_time_witness :
  data_byte 70 = true ∧
  ∃ sd evs,
    returns (create_section MidiConverter_init "intro" 8 0) sd ∧
    returns (add_melody MidiConverter_init [] (s_melody sd) (s_rhythm sd) 70 0) evs ∧
    inject_Z (total_time evs)
    == Qsum (beats_from (s_rhythm sd) 0 (length (s_melody sd)))
       * inject_Z (ticks_per_beat MidiConverter_init) ∧
    inject_Z (total_time evs)
    == inject_Z (len (s_melody sd) / len (s_rhythm sd))
       * (Qsum (s_rhythm sd) * inject_Z (ticks_per_beat MidiConverter_init)).
Proof. split; [reflexivity | apply (section_melody_time "intro" 8 70); reflexivity]. Defined.

(** C3 fails as stated on "intro": its sixteen tokens read the eight
    durations twice, so the delta-times add up to 4800 ticks, while the
    rhythm sequence sums to 5 beats, 2400 ticks. *)
Lemma intro_melody_time_not_rhythm_sum :
  ∃ sd evs,
    create_section MidiConverter_init "intro" 8 0 [] = (Ok sd, []) ∧
    add_melody MidiConverter_init [] (s_melody sd) (s_rhythm sd) 70 0 []
      = (Ok evs, []) ∧
    total_time evs = 4800 ∧
    Qsum (s_rhythm sd) * inject_Z (ticks_per_beat MidiConverter_init) == 2400 ∧
    ¬ inject_Z (total_time evs)
      == Qsum (s_rhythm sd) * inject_Z (ticks_per_beat MidiConverter_init).
Proof.
  do 2 eexists. split; [by vm_compute|]. split; [by vm_compute|].
  split; [by vm_compute|]. split; [by vm_compute|]. by vm_compute.
Qed.

(** C8: the melody of "outro", six pitched tokens on the rhythm
    [2, 2, 2, 2, 4, 4], rendered from offset 0, has delta-times that add up
    to (2+2+2+2+4+4) times the ticks per beat, 7680 ticks. *)
Theorem outro_melody_time (bars velocity : Z) :
  data_byte velocity = true →
  ∃ sd evs,
    returns (create_section MidiConverter_init "outro" bars 0) sd ∧
    s_melody sd = ["D5"; "F5"; "G5"; "F5"; "D5"; "D5"] ∧
    s_rhythm sd = [2.0; 2.0; 2.0; 2.0; 4.0; 4.0]%Q ∧
    returns (add_melody MidiConverter_init [] (s_melody sd) (s_rhythm sd)
               velocity 0) evs ∧
    total_time evs = (2 + 2 + 2 + 2 + 4 + 4) * ticks_per_beat MidiConverter_init ∧
    total_time evs = 7680.
Proof.
  intros Hv.
  set (sd := {| s_chords := ["Dm"; "Bb"; "F"; "C"; "Dm"; "Dm"];
                s_melody := ["D5"; "F5"; "G5"; "F5"; "D5"; "D5"];
                s_bass := ["D2"; "Bb1"; "F1"; "C2"; "D2"; "D2"];
                s_velocity := 60;
                s_rhythm := [2.0; 2.0; 2.0; 2.0; 4.0; 4.0]%Q |}).
  assert (returns (create_section MidiConverter_init "outro" bars 0) sd) as Hsd.
  { intros out. by exists out. }
  destruct (add_melody_no_rest MidiConverter_init notes_init_range []
              (s_melody sd) (s_rhythm sd) velocity) as (evs & Hret & Hsum);
    [done | done | by repeat constructor | by repeat constructor |].
  exists sd, evs. split_and!; [done..| |]; rewrite Hsum; reflexivity.
Qed.

Lemma outro_melody_time_witness :
  data_byte 70 = true ∧
  ∃ sd evs,
    returns (create_section MidiConverter_init "outro" 8 0) sd ∧
    s_melody sd = ["D5"; "F5"; "G5"; "F5"; "D5"; "D5"] ∧
    s_rhythm sd = [2.0; 2.0; 2.0; 2.0; 4.0; 4.0]%Q ∧
    returns (add_melody MidiConverter_init [] (s_melody sd) (s_rhythm sd) 70 0) evs ∧
    total_time evs = (2 + 2 + 2 + 2 + 4 + 4) * ticks_per_beat MidiConverter_init ∧
    total_time evs = 7680.
Proof. split; [reflexivity | apply (outro_melody_time 8 70); reflexivity]. Defined.

(** C4: for a non-empty chord-name sequence and any bar count,
    [add_chord_progression] appends one block per bar ([bars] blocks, none
    for a negative count); block [i] belongs to the chord name at
    position [i] modulo the length of the sequence; a name of the chord
    table gives one begin and then one end per pitch of its set, an
    unknown name gives nothing. *)
Theorem chord_progression_blocks track (chord_names : list string)
    (bars velocity time_offset : Z) :
  chord_names ≠ [] → data_byte velocity = true →
  ∃ blocks,
    returns (add_chord_progression MidiConverter_init track chord_names bars
               velocity time_offset) (track ++ concat blocks) ∧
    length blocks = Z.to_nat bars ∧
    ∀ i, (i < Z.to_nat bars)%nat →
      ∃ chord block,
        chord_names !! (i mod length chord_names)%nat = Some chord ∧
        blocks !! i = Some block ∧
        chord_contribution MidiConverter_init chord block.
Proof.
  intros Hne Hv.
  destruct (chord_sequence_of_returns chord_names bars Hne) as (cs & Hcs & Hlen & Hi).
  exists (chord_blocks MidiConverter_init velocity 1920 cs time_offset).
  split_and!.
  - by apply add_chord_progression_returns.
  - by rewrite chord_blocks_length.
  - intros i Hlt. destruct (lookup_lt_is_Some_2 cs i) as [c Hc]; [lia|].
    destruct (chord_blocks_contribution MidiConverter_init velocity 1920 cs
                time_offset i c Hc) as (block & Hb & Hcontr).
    exists c, block. by rewrite <- Hi.
Qed.

Lemma chord_progression_blocks_witness :
  ["Dm"; "X"] ≠ [] ∧ data_byte 80 = true ∧
  ∃ blocks,
    returns (add_chord_progression MidiConverter_init [] ["Dm"; "X"] 3 80 0)
      ([] ++ concat blocks) ∧
    length blocks = Z.to_nat 3 ∧
    ∀ i, (i < Z.to_nat 3)%nat →
      ∃ chord block,
        ["Dm"; "X"] !! (i mod length ["Dm"; "X"])%nat = Some chord ∧
        blocks !! i = Some block ∧
        chord_contribution MidiConverter_init chord block.
Proof.
  split; [discriminate|]. split; [reflexivity|].
  apply (chord_progression_blocks [] ["Dm"; "X"] 3 80 0); [discriminate | reflexivity].
Defined.

Example add_chord_progression_unknown_between :
  add_chord_progression MidiConverter_init [] ["Dm"; "X"] 3 80 5 []
  = (Ok [note_on 0 62 80 5; note_on 0 65 80 0; note_on 0 69 80 0;
         note_off 0 62 0 1920; note_off 0 65 0 0; note_off 0 69 0 0;
         note_on 0 62 80 0; note_on 0 65 80 0; note_on 0 69 80 0;
         note_off 0 62 0 1920; note_off 0 65 0 0; note_off 0 69 0 0], []).
Proof. reflexivity. Qed.

(** C10: an unknown chord name leaves track and pending time as they
    are, so no hold time is emitted for it: the delta-times add up to one
    bar (1920 ticks) for each chord of the sequence but the unknown ones,
    plus the offset when some chord is known; and the offset is the
    delta-time of the first begin of the first known chord, whatever
    unknown names come before it. *)
Theorem unknown_chord_adds_no_time track (chord_names : list string)
    (bars velocity time_offset : Z) :
  chord_names ≠ [] → data_byte velocity = true →
  ∃ chord_sequence evs,
    returns (chord_sequence_of chord_names bars) chord_sequence ∧
    length chord_sequence = Z.to_nat bars ∧
    returns (add_chord_progression MidiConverter_init track chord_names bars
               velocity time_offset) (track ++ evs) ∧
    (∀ chord rest tr ct,
       chords MidiConverter_init !! chord = None →
       chord_loop MidiConverter_init velocity 4 (chord :: rest) tr ct
       = chord_loop MidiConverter_init velocity 4 rest tr ct) ∧
    total_time evs
    = (if existsb (known_chord MidiConverter_init) chord_sequence
       then time_offset else 0)
      + beats_to_ticks MidiConverter_init 4
        * (Z.of_nat (length chord_sequence)
           - Z.of_nat (count_unknown MidiConverter_init chord_sequence)) ∧
    (∀ us chord p ps rest,
       chord_sequence = us ++ chord :: rest →
       Forall (λ u, chords MidiConverter_init !! u = None) us →
       chords MidiConverter_init !! chord = Some (p :: ps) →
       ∃ evs', evs = note_on 0 p velocity time_offset :: evs').
Proof.
  intros Hne Hv.
  destruct (chord_sequence_of_returns chord_names bars Hne) as (cs & Hcs & Hlen & _).
  exists cs, (concat (chord_blocks MidiConverter_init velocity 1920 cs time_offset)).
  split_and!; [done | done | by apply add_chord_progression_returns | | |].
  - intros. by apply chord_loop_skip.
  - rewrite (chord_blocks_total_time _ _ _ chords_init_nonempty), whole_note_ticks.
    pose proof (count_known_unknown MidiConverter_init cs). lia.
  - intros us chord p ps rest -> Hus Hc. by eapply chord_blocks_first.
Qed.

Lemma unknown_chord_adds_no_time_witness :
  ["X"; "Dm"] ≠ [] ∧ data_byte 80 = true ∧
  ∃ chord_sequence evs,
    returns (chord_sequence_of ["X"; "Dm"] 3) chord_sequence ∧
    length chord_sequence = Z.to_nat 3 ∧
    returns (add_chord_progression MidiConverter_init [] ["X"; "Dm"] 3 80 5)
      ([] ++ evs) ∧
    (∀ chord rest tr ct,
       chords MidiConverter_init !! chord = None →
       chord_loop MidiConverter_init 80 4 (chord :: rest) tr ct
       = chord_loop MidiConverter_init 80 4 rest tr ct) ∧
    total_time evs
    = (if existsb (known_chord MidiConverter_init) chord_sequence then 5 else 0)
      + beats_to_ticks MidiConverter_init 4
        * (Z.of_nat (length chord_sequence)
           - Z.of_nat (count_unknown MidiConverter_init chord_sequence)) ∧
    (∀ us chord p ps rest,
       chord_sequence = us ++ chord :: rest →
       Forall (λ u, chords MidiConverter_init !! u = None) us →
       chords MidiConverter_init !! chord = Some (p :: ps) →
       ∃ evs', evs = note_on 0 p 80 5 :: evs').
Proof.
  split; [discriminate|]. split; [reflexivity|].
  apply (unknown_chord_adds_no_time [] ["X"; "Dm"] 3 80 5); [discriminate | reflexivity].
Defined.

Example add_chord_progression_unknown_first :
  add_chord_progression MidiConverter_init [] ["X"; "Dm"] 3 80 5 []
  = (Ok [note_on 0 62 80 5; note_on 0 65 80 0; note_on 0 69 80 0;
         note_off 0 62 0 1920; note_off 0 65 0 0; note_off 0 69 0 0], []).
Proof. reflexivity. Qed.

Lemma paired_alternates (evs : list Message) :
  paired evs → ∀ i m, evs !! i = Some m → is_note_on m = Nat.even i.
Proof.
  revert evs. fix IH 1. intros [|m [|m' evs]]; simpl; [done| |].
  - by destruct m.
  - destruct m; [|done]. destruct m'; [done|].
    intros (_ & _ & H) [|[|i]] m E; simpl in E.
    + by injection E as <-.
    + by injection E as <-.
    + change (Nat.even (S (S i))) with (Nat.even i). by apply (IH evs H i).
Qed.

(** C5: whatever [add_melody] or [add_bass_line] appends to a track is
    made of begin/end pairs: each [note_on] is followed at once by the
    [note_off] of its channel and pitch, so begins and ends alternate
    (begins at the even positions, ends at the odd ones) and are equal
    in number. *)
Theorem melody_bass_paired track (melody : list string) (rhythm : list Q)
    (bass : list string) (velocity time_offset : Z) out track' out' :
  add_melody MidiConverter_init track melody rhythm velocity time_offset out
    = (Ok track', out')
  ∨ add_bass_line MidiConverter_init track bass velocity time_offset out
    = (Ok track', out') →
  ∃ evs, track' = track ++ evs ∧
    paired evs ∧
    (∀ i m, evs !! i = Some m → is_note_on m = Nat.even i) ∧
    count_msgs is_note_on evs = count_msgs is_note_off evs.
Proof.
  intros [H|H].
  - unfold add_melody in H. bind_inv H. destruct a as [tr ct].
    injection H as <- _.
    apply (melody_loop_inv _ _ _ _ 0%nat) in E as (evs & -> & Hp & _).
    exists evs. split_and!; [done | done | by apply paired_alternates
                            | by apply paired_counts].
  - unfold add_bass_line in H. bind_inv H. destruct a as [tr ct].
    injection H as <- _.
    apply bass_loop_inv in E as (evs & -> & Hp & _).
    exists evs. split_and!; [done | done | by apply paired_alternates
                            | by apply paired_counts].
Qed.

Lemma melody_bass_paired_witness :
  add_melody MidiConverter_init [] ["D4"; "rest"; "F4"] [0.5; 1.0]%Q 90 7 []
    = (Ok [note_on 1 62 90 7; note_off 1 62 0 240;
           note_on 1 65 90 480; note_off 1 65 0 240], []) ∧
  ∃ evs,
    [note_on 1 62 90 7; note_off 1 62 0 240;
     note_on 1 65 90 480; note_off 1 65 0 240] = [] ++ evs ∧
    paired evs ∧
    (∀ i m, evs !! i = Some m → is_note_on m = Nat.even i) ∧
    count_msgs is_note_on evs = count_msgs is_note_off evs.
Proof.
  split; [reflexivity|].
  apply (melody_bass_paired [] ["D4"; "rest"; "F4"] [0.5; 1.0]%Q [] 90 7 []
           _ []).
  left. reflexivity.
Defined.

Example add_bass_line_two_notes :
  add_bass_line MidiConverter_init [] ["D2"; "Bb1"] 85 0 []
  = (Ok [note_on 2 38 85 0; note_off 2 38 0 1920;
         note_on 2 34 85 0; note_off 2 34 0 1920], []).
Proof. reflexivity. Qed.

(** The loop body of [generate_midi] leaves [current_time] at 0, so 0 is
    the only time a section is ever rendered from. *)
Lemma generate_section_time (name : string) (bars : Z) t ct out t' ct' out' :
  generate_section MidiConverter_init name bars t ct out = (Ok (t', ct'), out') →
  ct' = 0.
Proof.
  unfold generate_section. intros H. do 2 bind_inv H. by injection H as _ <- _.
Qed.

(** The whole structure renders: 132 chords, 182 melody tokens and 130
    bass tokens, nothing printed. *)
Example generate_sections_structure :
  ∃ t, generate_sections MidiConverter_init (structure MidiConverter_init)
         empty_tracks 0 [] = (Ok (t, 0), []) ∧
       length (chord_track t) = 822%nat ∧
       length (melody_track t) = 364%nat ∧
       length (bass_track t) = 260%nat.
Proof. eexists. split; [by vm_compute|]. by vm_compute. Qed.

(** C7: for a name that is not in the section table, [create_section]
    returns the data of "intro"; the three renderers, given that data,
    the same bar count and the same offset, do what they do for "intro",
    and so does the loop body of [generate_midi] at the time it keeps,
    0. *)
Theorem unknown_section_is_intro (name : string) (bars start : Z) :
  section_data !! name = None →
  ∃ intro,
    section_data !! "intro" = Some intro ∧
    returns (create_section MidiConverter_init name bars start) intro ∧
    returns (create_section MidiConverter_init "intro" bars start) intro ∧
    (∀ offset t out,
       (sd ← create_section MidiConverter_init name bars start;
        render_section_data MidiConverter_init sd bars offset t) out
       = (sd ← create_section MidiConverter_init "intro" bars start;
          render_section_data MidiConverter_init sd bars offset t) out) ∧
    (∀ t out,
       generate_section MidiConverter_init name bars t 0 out
       = generate_section MidiConverter_init "intro" bars t 0 out).
Proof.
  intros Hname. destruct create_section_returns as (intro & Hintro & Hret).
  assert (returns (create_section MidiConverter_init name bars start) intro) as H1.
  { pose proof (Hret name bars start) as H. unfold dict_get in H.
    by rewrite Hname in H. }
  assert (returns (create_section MidiConverter_init "intro" bars start) intro) as H2.
  { pose proof (Hret "intro" bars start) as H. unfold dict_get in H.
    by rewrite Hintro in H. }
  exists intro. split_and!; [done..| |].
  - intros offset t out. destruct (H1 out) as [o1 E1], (H2 out) as [o2 E2].
    rewrite (bind_Ok _ _ _ _ _ E1), (bind_Ok _ _ _ _ _ E2).
    unfold create_section, dict_getitem in E1, E2. rewrite Hintro in E1, E2.
    injection E1 as _ <-. by injection E2 as _ <-.
  - intros t out. unfold generate_section.
    unfold create_section, dict_getitem, dict_get. rewrite Hintro, Hname.
    destruct (String.eqb_spec name "intro") as [->|_]; [congruence|].
    done.
Qed.

Lemma unknown_section_is_intro_witness :
  section_data !! "solo" = None ∧
  ∃ intro,
    section_data !! "intro" = Some intro ∧
    returns (create_section MidiConverter_init "solo" 8 0) intro ∧
    returns (create_section MidiConverter_init "intro" 8 0) intro ∧
    (∀ offset t out,
       (sd ← create_section MidiConverter_init "solo" 8 0;
        render_section_data MidiConverter_init sd 8 offset t) out
       = (sd ← create_section MidiConverter_init "intro" 8 0;
          render_section_data MidiConverter_init sd 8 offset t) out) ∧
    (∀ t out,
       generate_section MidiConverter_init "solo" 8 t 0 out
       = generate_section MidiConverter_init "intro" 8 t 0 out).
Proof.
  split; [reflexivity | apply (unknown_section_is_intro "solo" 8 0); reflexivity].
Defined.

(** ** More on the pitch resolver *)

Lemma notes_init_values :
  map_Forall (λ _ v, 60 ≤ v ≤ 71) (notes MidiConverter_init).
Proof.
  simpl. repeat (apply map_Forall_insert_2; [lia|]). apply map_Forall_empty.
Qed.

Lemma dict_get_notes_init (k : string) :
  60 ≤ dict_get (notes MidiConverter_init) k 60 ≤ 71.
Proof.
  unfold dict_get. destruct (notes MidiConverter_init !! k) as [v|] eqn:E; simpl; [|lia].
  by apply (notes_init_values k v).
Qed.

Lemma digit_value_range (c : ascii) :
  is_decimal c = true → 0 ≤ digit_value c ≤ 9.
Proof.
  unfold is_decimal, digit_value. cbv zeta.
  rewrite andb_true_iff, !N.leb_le. lia.
Qed.

Lemma pitch_of_init_bounds (t : string) :
  12 ≤ pitch_of MidiConverter_init t ≤ 127.
Proof.
  unfold pitch_of.
  destruct (String.eqb t EmptyString || String.eqb t "rest"); [lia|].
  pose proof (dict_get_notes_init t) as Ht.
  destruct (len_str t <? 2); [lia|].
  destruct (str_last t) as [c|]; [|lia].
  destruct (isdigit c); [|unfold clamp; lia].
  destruct (is_decimal c) eqn:Hd; [|lia].
  pose proof (digit_value_range c Hd).
  pose proof (dict_get_notes_init (str_drop_last t)). unfold clamp. lia.
Qed.

(** X1: whenever the resolver returns, the pitch lies between 12 and
    127: the table holds 60..71 and the octave digit moves a pitch down by
    four octaves at most, so the lower clamp at 0 never acts. *)
Theorem note_name_to_midi_at_least_12 (t : string) out v out' :
  note_name_to_midi MidiConverter_init t out = (Ok v, out') → 12 ≤ v ≤ 127.
Proof.
  intros H. apply note_name_to_midi_Ok in H as ->. apply pitch_of_init_bounds.
Qed.

Lemma note_name_to_midi_at_least_12_witness :
  note_name_to_midi MidiConverter_init "C0" [] = (Ok 12, []) ∧ 12 ≤ 12 ≤ 127.
Proof.
  split; [reflexivity|].
  apply (note_name_to_midi_at_least_12 "C0" [] 12 []). reflexivity.
Defined.

Lemma quiet_without_digit (t : string) :
  (∀ c, str_last t = Some c → isdigit c = false) → warns t = false.
Proof.
  intros Hlast. unfold warns. destruct (str_last t) as [c|]; [|by rewrite andb_false_r].
  by rewrite (Hlast c), andb_false_r.
Qed.

(** X2: the default octave is 4.  A token that does not end in a digit
    resolves to the same pitch as the token with "4" appended. *)
Theorem note_name_to_midi_default_octave (t : string) :
  (∀ c, str_last t = Some c → isdigit c = false) →
  ∃ v, returns (note_name_to_midi MidiConverter_init t) v ∧
       returns (note_name_to_midi MidiConverter_init (t ++ "4")) v.
Proof.
  intros Hlast. exists (pitch_of MidiConverter_init t).
  split.
  { intros out. exists out. by apply note_name_to_midi_quiet, quiet_without_digit. }
  intros out. exists out.
  rewrite note_name_to_midi_quiet by by apply (warns_snoc t "4").
  f_equal. f_equal.
  destruct t as [|a t]; [reflexivity|].
  rewrite note_name_to_midi_snoc by done. change (digit_value "4") with 4.
  pose proof (dict_get_notes_init (String a t)) as Hr.
  unfold pitch_of.
  destruct (String.eqb (String a t) EmptyString || String.eqb (String a t) "rest")
    eqn:Hrest.
  { apply orb_true_iff in Hrest as [E|E]; apply String.eqb_eq in E; [done|].
    rewrite E. reflexivity. }
  destruct (len_str (String a t) <? 2); [unfold clamp; lia|].
  destruct (str_last (String a t)) as [c|] eqn:Hc.
  - by rewrite (Hlast c).
  - destruct (str_last_is_Some (String a t)) as [c' Hc']; [simpl; lia|congruence].
Qed.

Lemma note_name_to_midi_default_octave_witness :
  (∀ c, str_last "Bb" = Some c → isdigit c = false) ∧
  ∃ v, returns (note_name_to_midi MidiConverter_init "Bb") v ∧
       returns (note_name_to_midi MidiConverter_init ("Bb" ++ "4")) v.
Proof.
  assert (∀ c, str_last "Bb" = Some c → isdigit c = false) as H.
  { intros c E. injection E as <-. reflexivity. }
  split; [exact H | exact (note_name_to_midi_default_octave "Bb" H)].
Defined.

(** X3: one octave digit up is twelve semitones up, as long as the upper
    clamp at 127 is not reached. *)
Theorem note_name_to_midi_octave_step (p : string) (d d' : ascii) :
  p ≠ EmptyString → is_decimal d = true → is_decimal d' = true →
  digit_value d' = digit_value d + 1 →
  dict_get (notes MidiConverter_init) p 60 + (digit_value d' - 4) * 12 ≤ 127 →
  ∃ v, returns (note_name_to_midi MidiConverter_init (p ++ String d EmptyString)) v ∧
       returns (note_name_to_midi MidiConverter_init (p ++ String d' EmptyString))
         (v + 12).
Proof.
  intros Hp Hd Hd' Hstep Hmax.
  exists (pitch_of MidiConverter_init (p ++ String d EmptyString)).
  split.
  { intros out. exists out. by apply note_name_to_midi_quiet, warns_snoc. }
  intros out. exists out.
  rewrite note_name_to_midi_quiet by by apply warns_snoc.
  f_equal. f_equal.
  rewrite !note_name_to_midi_snoc by done.
  pose proof (dict_get_notes_init p). pose proof (digit_value_range d Hd).
  unfold clamp. lia.
Qed.

Lemma note_name_to_midi_octave_step_witness :
  "F#" ≠ EmptyString ∧ is_decimal "2" = true ∧ is_decimal "3" = true ∧
  digit_value "3" = digit_value "2" + 1 ∧
  dict_get (notes MidiConverter_init) "F#" 60 + (digit_value "3" - 4) * 12 ≤ 127 ∧
  ∃ v, returns (note_name_to_midi MidiConverter_init ("F#" ++ String "2" EmptyString)) v ∧
       returns (note_name_to_midi MidiConverter_init ("F#" ++ String "3" EmptyString))
         (v + 12).
Proof.
  split; [discriminate|]. do 3 (split; [reflexivity|]).
  split; [by vm_compute|].
  apply (note_name_to_midi_octave_step "F#" "2" "3");
    [discriminate | reflexivity | reflexivity | reflexivity | by vm_compute].
Defined.

(** X4: what the resolver prints.  On a token of two characters or
    more that ends in a digit for [isdigit] that [int] does not parse, it
    prints one line, its warning, and returns 60, unless standard output
    cannot encode the line: then it raises the UnicodeEncodeError of that
    [print] and nothing is printed.  On every other token it returns and
    leaves standard output as it is. *)
Theorem note_name_to_midi_output (self : MidiConverter) (t : string) out :
  if warns t
  then ∃ line, warning_of t = [line] ∧
         note_name_to_midi self t out
         = match encode_error out line with
           | None => (Ok 60, with_lines out [line])
           | Some msg => (Raise (UnicodeEncodeError msg), out)
           end
  else ∃ v, note_name_to_midi self t out = (Ok v, out).
Proof.
  destruct (warns t) eqn:Hw.
  - rewrite note_name_to_midi_exact. unfold print_error, warning_of, pitch_of.
    rewrite Hw. unfold warns in Hw.
    rewrite !andb_true_iff, !negb_true_iff in Hw. destruct Hw as [[-> ->] Hc].
    destruct (str_last t) as [c|]; [|done].
    apply andb_true_iff in Hc as [-> Hdec]. apply negb_true_iff in Hdec.
    rewrite Hdec. by eexists.
  - eexists. by apply note_name_to_midi_quiet.
Qed.

(** ** More on [beats_to_ticks] *)

(** X5: for a duration that is a binary fraction with an exact product
    (an integer, or a duration of the tables), when the duration times
    the ticks per beat is a whole number, [beats_to_ticks] is that
    number: nothing is lost to truncation. *)
Theorem beats_to_ticks_whole (self : MidiConverter) (beats : Q) (k : Z) :
  exact_beats self beats = true →
  beats * inject_Z (ticks_per_beat self) == inject_Z k →
  beats_to_ticks self beats = k.
Proof.
  unfold beats_to_ticks, int_of_number. intros _ H.
  destruct (beats * inject_Z (ticks_per_beat self))%Q as [n d].
  unfold Qeq in H. simpl in *. rewrite Z.mul_1_r in H. rewrite H.
  apply Z.quot_mul. done.
Qed.

Lemma beats_to_ticks_whole_witness :
  exact_beats MidiConverter_init 0.5 = true ∧
  0.5 * inject_Z (ticks_per_beat MidiConverter_init) == inject_Z 240 ∧
  beats_to_ticks MidiConverter_init 0.5 = 240.
Proof.
  assert (0.5 * inject_Z (ticks_per_beat MidiConverter_init) == inject_Z 240) as H
    by reflexivity.
  split; [reflexivity|]. split; [exact H|].
  exact (beats_to_ticks_whole MidiConverter_init 0.5 240 eq_refl H).
Defined.

(** X6: [beats_to_ticks] truncates towards zero.  For a duration that is
    a binary fraction with an exact product and is not negative (nor are
    the ticks per beat), the result is the largest whole number of ticks
    not above the product, and the ticks of the opposite duration are the
    opposite ticks. *)
Theorem beats_to_ticks_truncates (self : MidiConverter) (beats : Q) :
  exact_beats self beats = true →
  (0 <= beats)%Q → 0 ≤ ticks_per_beat self →
  (inject_Z (beats_to_ticks self beats) <= beats * inject_Z (ticks_per_beat self))%Q
  ∧ (beats * inject_Z (ticks_per_beat self)
     < inject_Z (beats_to_ticks self beats + 1))%Q
  ∧ beats_to_ticks self (- beats) = - beats_to_ticks self beats.
Proof.
  intros _ Hb Ht. unfold beats_to_ticks, int_of_number.
  assert (0 ≤ Qnum (beats * inject_Z (ticks_per_beat self))) as Hx.
  { simpl. unfold Qle in Hb. simpl in Hb. nia. }
  assert (Qnum (- beats * inject_Z (ticks_per_beat self))%Q
          = - Qnum (beats * inject_Z (ticks_per_beat self))%Q) as Hopp.
  { simpl. lia. }
  rewrite Hopp.
  change (Qden (- beats * inject_Z (ticks_per_beat self))%Q)
    with (Qden (beats * inject_Z (ticks_per_beat self))%Q).
  destruct (beats * inject_Z (ticks_per_beat self))%Q as [n d]. simpl in *.
  split_and!.
  - unfold Qle. simpl. rewrite Z.mul_1_r, Z.mul_comm.
    apply Z.mul_quot_le; lia.
  - unfold Qlt. simpl. rewrite Z.mul_1_r, Z.mul_comm.
    apply Z.mul_succ_quot_gt; lia.
  - apply Z.quot_opp_l. lia.
Qed.

Lemma beats_to_ticks_truncates_witness :
  exact_beats MidiConverter_init (1 # 1024) = true ∧
  (0 <= 1 # 1024)%Q ∧ 0 ≤ ticks_per_beat MidiConverter_init ∧
  (inject_Z (beats_to_ticks MidiConverter_init (1 # 1024))
   <= (1 # 1024) * inject_Z (ticks_per_beat MidiConverter_init))%Q
  ∧ ((1 # 1024) * inject_Z (ticks_per_beat MidiConverter_init)
     < inject_Z (beats_to_ticks MidiConverter_init (1 # 1024) + 1))%Q
  ∧ beats_to_ticks MidiConverter_init (- (1 # 1024))
    = - beats_to_ticks MidiConverter_init (1 # 1024).
Proof.
  assert (0 <= 1 # 1024)%Q as H1 by (by vm_compute).
  assert (0 ≤ ticks_per_beat MidiConverter_init) as H2 by (by vm_compute).
  split; [reflexivity|]. split; [exact H1|]. split; [exact H2|].
  exact (beats_to_ticks_truncates MidiConverter_init (1 # 1024) eq_refl H1 H2).
Defined.

(** ** Computations that print nothing *)

Section Silent.
Context {A B : Type}.

Lemma silent_ret (a : A) : silent (mret a).
Proof. intros out r out' H. by injection H as _ <-. Qed.

Lemma silent_raise (e : exn) : silent (raise e : M A).
Proof. intros out r out' H. by injection H as _ <-. Qed.

Lemma silent_bind (m : M A) (f : A → M B) :
  silent m → (∀ a, silent (f a)) → silent (m ≫= f).
Proof.
  intros Hm Hf out r out'. unfold mbind, M_bind.
  destruct (m out) as [[a|e] o] eqn:E; intros H.
  - apply Hm in E as ->. by apply Hf in H.
  - injection H as _ <-. by apply Hm in E.
Qed.

Lemma returns_silent (m : M A) (a : A) out :
  returns m a → silent m → m out = (Ok a, out).
Proof.
  intros Hr Hs. destruct (Hr out) as [out' E]. by rewrite (Hs _ _ _ E) in E.
Qed.
End Silent.

Lemma silent_py_mod (a b : Z) : silent (py_mod a b).
Proof. unfold py_mod. destruct (b =? 0); [apply silent_raise | apply silent_ret]. Qed.

Lemma silent_floordiv (a b : Z) : silent (floordiv a b).
Proof. unfold floordiv. destruct (b =? 0); [apply silent_raise | apply silent_ret]. Qed.

Lemma silent_list_getitem {A : Type} (l : list A) (k : Z) :
  silent (list_getitem l k).
Proof.
  unfold list_getitem. cbv zeta.
  destruct (_ <? 0); [apply silent_raise|].
  destruct (l !! _); [apply silent_ret | apply silent_raise].
Qed.

Lemma silent_dict_getitem {V : Type} (d : gmap string V) (k : string) :
  silent (dict_getitem d k).
Proof.
  unfold dict_getitem. destruct (d !! k); [apply silent_ret | apply silent_raise].
Qed.

Lemma silent_Message_note_on (c n v t : Z) : silent (Message_note_on c n v t).
Proof.
  unfold Message_note_on. destruct (negb _); [apply silent_raise|].
  destruct (negb _); [apply silent_raise | apply silent_ret].
Qed.

Lemma silent_Message_note_off (c n v t : Z) : silent (Message_note_off c n v t).
Proof.
  unfold Message_note_off. destruct (negb _); [apply silent_raise|].
  destruct (negb _); [apply silent_raise | apply silent_ret].
Qed.

Lemma silent_note_name_to_midi (self : MidiConverter) (t : string) :
  warns t = false → silent (note_name_to_midi self t).
Proof.
  intros Hw out r out'. rewrite note_name_to_midi_quiet by done.
  by injection 1 as _ <-.
Qed.

(** ** The messages of the melody and of the bass line *)

Section Events.
Variable self : MidiConverter.

Lemma melody_loop_events (rhythm : list Q) (velocity : Z) (melody : list string) :
  ∀ (j : nat) track ct out track' ct' out',
    melody_loop self rhythm velocity melody (Z.of_nat j) track ct out
      = (Ok (track', ct'), out') →
    track' = track ++ melody_events self rhythm velocity melody j ct ∧
    ct' = melody_pending self rhythm melody j ct.
Proof.
  induction melody as [|name melody IH]; intros j track ct out track' ct' out' H.
  - injection H as <- <- _. by rewrite app_nil_r.
  - simpl in H. replace (Z.of_nat j + 1) with (Z.of_nat (S j)) in H by lia.
    simpl. destruct (String.eqb name "rest").
    + bind_inv H. bind_inv H.
      destruct (rhythm_read_inv _ _ _ _ _ _ _ E E0) as [_ ->]. by apply IH in H.
    + bind_inv H. apply note_name_to_midi_Ok in E as ->.
      bind_inv H. bind_inv H.
      destruct (rhythm_read_inv _ _ _ _ _ _ _ E E0) as [_ ->].
      bind_inv H. apply Message_note_on_inv in E1 as ->.
      bind_inv H. apply Message_note_off_inv in E1 as ->.
      apply IH in H as [-> ->]. by rewrite <- !app_assoc.
Qed.

Lemma bass_loop_events (velocity : Z) (beats : Q) (bass : list string) :
  ∀ track ct out track' ct' out',
    bass_loop self velocity beats bass track ct out = (Ok (track', ct'), out') →
    track' = track ++ bass_events self velocity (beats_to_ticks self beats) bass ct.
Proof.
  induction bass as [|name bass IH]; intros track ct out track' ct' out' H.
  - injection H as <- _ _. by rewrite app_nil_r.
  - simpl in H. bind_inv H. apply note_name_to_midi_Ok in E as ->.
    bind_inv H. apply Message_note_on_inv in E as ->.
    bind_inv H. apply Message_note_off_inv in E as ->.
    apply IH in H as ->. simpl. by rewrite <- !app_assoc.
Qed.

Lemma add_melody_events track melody rhythm velocity time_offset out track' out' :
  add_melody self track melody rhythm velocity time_offset out = (Ok track', out') →
  track' = track ++ melody_events self rhythm velocity melody 0 time_offset.
Proof.
  unfold add_melody. intros H. bind_inv H. destruct a as [tr ct].
  injection H as <- _.
  by apply (melody_loop_events _ _ _ 0%nat) in E as [-> _].
Qed.

Lemma add_bass_line_events track bass velocity time_offset out track' out' :
  add_bass_line self track bass velocity time_offset out = (Ok track', out') →
  track' = track ++ bass_events self velocity (beats_to_ticks self 4) bass time_offset.
Proof.
  unfold add_bass_line. intros H. bind_inv H. destruct a as [tr ct].
  injection H as <- _. by apply bass_loop_events in E.
Qed.

(** The loops do not look at the track they extend. *)
Lemma melody_loop_frame (rhythm : list Q) (velocity : Z) (melody : list string) :
  ∀ i track ct out,
    melody_loop self rhythm velocity melody i track ct out
    = extend track (melody_loop self rhythm velocity melody i [] ct out).
Proof.
  induction melody as [|name melody IH]; intros i track ct out.
  - simpl. by rewrite app_nil_r.
  - simpl. destruct (String.eqb name "rest"); unfold mbind, M_bind.
    + destruct (py_mod _ _ out) as [[k|e] o]; [|done].
      destruct (list_getitem _ _ o) as [[b|e] o']; [|done]. apply IH.
    + destruct (note_name_to_midi _ _ out) as [[n|e] o0]; [|done].
      destruct (py_mod _ _ o0) as [[k|e] o]; [|done].
      destruct (list_getitem _ _ o) as [[b|e] o']; [|done].
      destruct (Message_note_on _ _ _ _ o') as [[on|e] o1]; [|done].
      destruct (Message_note_off _ _ _ _ o1) as [[off|e] o2]; [|done].
      rewrite (IH _ ((track ++ [on]) ++ [off])), (IH _ (([] ++ [on]) ++ [off])).
      destruct (melody_loop _ _ _ _ _ [] _ _) as [[[evs c]|e] o3]; simpl; [|done].
      by rewrite <- !app_assoc.
Qed.

Lemma bass_loop_frame (velocity : Z) (beats : Q) (bass : list string) :
  ∀ track ct out,
    bass_loop self velocity beats bass track ct out
    = extend track (bass_loop self velocity beats bass [] ct out).
Proof.
  induction bass as [|name bass IH]; intros track ct out.
  - simpl. by rewrite app_nil_r.
  - simpl. unfold mbind, M_bind.
    destruct (note_name_to_midi _ _ out) as [[n|e] o0]; [|done].
    destruct (Message_note_on _ _ _ _ o0) as [[on|e] o1]; [|done].
    destruct (Message_note_off _ _ _ _ o1) as [[off|e] o2]; [|done].
    rewrite (IH ((track ++ [on]) ++ [off])), (IH (([] ++ [on]) ++ [off])).
    destruct (bass_loop _ _ _ _ [] _ _) as [[[evs c]|e] o3]; simpl; [|done].
    by rewrite <- !app_assoc.
Qed.

Lemma chord_notes_on_frame (ps : list Z) (velocity : Z) :
  ∀ track ct out,
    chord_notes_on ps velocity track ct out
    = extend track (chord_notes_on ps velocity [] ct out).
Proof.
  induction ps as [|p ps IH]; intros track ct out.
  - simpl. by rewrite app_nil_r.
  - simpl. unfold mbind, M_bind.
    destruct (Message_note_on _ _ _ _ out) as [[on|e] o1]; [|done].
    rewrite (IH (track ++ [on])), (IH ([] ++ [on])).
    destruct (chord_notes_on _ _ [] _ _) as [[[evs c]|e] o3]; simpl; [|done].
    by rewrite <- !app_assoc.
Qed.

Lemma chord_notes_off_frame (ps : list Z) :
  ∀ track hold out,
    chord_notes_off ps track hold out
    = extend track (chord_notes_off ps [] hold out).
Proof.
  induction ps as [|p ps IH]; intros track hold out.
  - simpl. by rewrite app_nil_r.
  - simpl. unfold mbind, M_bind.
    destruct (Message_note_off _ _ _ _ out) as [[off|e] o1]; [|done].
    rewrite (IH (track ++ [off])), (IH ([] ++ [off])).
    destruct (chord_notes_off _ [] _ _) as [[[evs c]|e] o3]; simpl; [|done].
    by rewrite <- !app_assoc.
Qed.

Lemma chord_loop_frame (velocity : Z) (beats : Q) (chord_sequence : list string) :
  ∀ track ct out,
    chord_loop self velocity beats chord_sequence track ct out
    = extend track (chord_loop self velocity beats chord_sequence [] ct out).
Proof.
  induction chord_sequence as [|c l IH]; intros track ct out.
  - simpl. by rewrite app_nil_r.
  - simpl. destruct (chords self !! c) as [ps|]; [|apply IH].
    unfold mbind, M_bind.
    rewrite (chord_notes_on_frame ps velocity track).
    destruct (chord_notes_on _ _ [] _ _) as [[[ons c1]|e] o1]; simpl; [|done].
    rewrite (chord_notes_off_frame ps (track ++ ons)),
            (chord_notes_off_frame ps ([] ++ ons)).
    destruct (chord_notes_off _ [] _ _) as [[[offs c2]|e] o2]; simpl; [|done].
    rewrite (IH ((track ++ ons) ++ offs)), (IH (ons ++ offs)).
    destruct (chord_loop _ _ _ _ [] _ _) as [[[evs c3]|e] o3]; simpl; [|done].
    by rewrite <- !app_assoc.
Qed.

Lemma add_chord_progression_frame track chord_names bars velocity time_offset out :
  add_chord_progression self track chord_names bars velocity time_offset out
  = prepend track
      (add_chord_progression self [] chord_names bars velocity time_offset out).
Proof.
  unfold add_chord_progression, mbind, M_bind.
  destruct (chord_sequence_of _ _ out) as [[cs|e] o]; [|done].
  rewrite chord_loop_frame.
  by destruct (chord_loop _ _ _ _ [] _ _) as [[[evs c]|e] o1].
Qed.

Lemma add_melody_frame track melody rhythm velocity time_offset out :
  add_melody self track melody rhythm velocity time_offset out
  = prepend track (add_melody self [] melody rhythm velocity time_offset out).
Proof.
  unfold add_melody, mbind, M_bind. rewrite melody_loop_frame.
  by destruct (melody_loop _ _ _ _ _ [] _ _) as [[[evs c]|e] o1].
Qed.

Lemma add_bass_line_frame track bass velocity time_offset out :
  add_bass_line self track bass velocity time_offset out
  = prepend track (add_bass_line self [] bass velocity time_offset out).
Proof.
  unfold add_bass_line, mbind, M_bind. rewrite bass_loop_frame.
  by destruct (bass_loop _ _ _ _ [] _ _) as [[[evs c]|e] o1].
Qed.

(** X7: the three renderers only append.  Run on any track, each does
    what it does on the empty track, with the same exception or the same
    printed lines, and returns the track it was given followed by the
    new messages. *)
Theorem renderers_only_append track (chord_names : list string) (bars : Z)
    (melody : list string) (rhythm : list Q) (bass : list string)
    (velocity time_offset : Z) out :
  add_chord_progression self track chord_names bars velocity time_offset out
  = prepend track
      (add_chord_progression self [] chord_names bars velocity time_offset out)
  ∧ add_melody self track melody rhythm velocity time_offset out
    = prepend track (add_melody self [] melody rhythm velocity time_offset out)
  ∧ add_bass_line self track bass velocity time_offset out
    = prepend track (add_bass_line self [] bass velocity time_offset out).
Proof.
  split_and!;
    [apply add_chord_progression_frame | apply add_melody_frame
     | apply add_bass_line_frame].
Qed.
End Events.

(** ** What the melody and the bass line hold *)

Lemma beats_to_ticks_nonneg (self : MidiConverter) (beats : Q) :
  (0 <= beats)%Q → 0 ≤ ticks_per_beat self → 0 ≤ beats_to_ticks self beats.
Proof.
  intros Hb Ht. unfold beats_to_ticks, int_of_number.
  apply Z.quot_pos; [|lia]. simpl. unfold Qle in Hb. simpl in Hb. nia.
Qed.

Lemma beat_at_nonneg (rhythm : list Q) (j : nat) :
  Forall (λ q, (0 <= q)%Q) rhythm → (0 <= beat_at rhythm j)%Q.
Proof.
  intros H. unfold beat_at.
  destruct (nth_in_or_default (j mod length rhythm) rhythm 0%Q) as [Hin| ->].
  - rewrite List.Forall_forall in H. by apply H.
  - apply Qle_refl.
Qed.

Section EventFacts.
Variable self : MidiConverter.
Variable rhythm : list Q.
Variable velocity : Z.

Lemma melody_events_length (melody : list string) (j : nat) (ct : Z) :
  length (melody_events self rhythm velocity melody j ct)
  = (2 * length (pitched melody))%nat.
Proof.
  revert j ct. unfold pitched.
  induction melody as [|name melody IH]; intros j ct; simpl; [done|].
  destruct (String.eqb name "rest"); simpl; rewrite IH; lia.
Qed.

Lemma melody_events_messages (melody : list string) (j : nat) (ct : Z) :
  Forall (λ m, msg_channel m = 1 ∧
               (∃ name, name ∈ pitched melody ∧ msg_note m = pitch_of self name) ∧
               msg_velocity m = (if is_note_on m then velocity else 0))
    (melody_events self rhythm velocity melody j ct).
Proof.
  revert j ct. unfold pitched.
  induction melody as [|name melody IH]; intros j ct; simpl; [constructor|].
  destruct (String.eqb name "rest"); simpl; [apply IH|].
  repeat constructor; simpl; [exists name; split; [left|done]..|].
  eapply Forall_impl; [apply IH|]. intros m (Hc & (n & Hn & Hp) & Hv).
  split_and!; [done| |done]. exists n. split; [by right|done].
Qed.

Lemma melody_events_nonneg (melody : list string) (j : nat) (ct : Z) :
  Forall (λ q, (0 <= q)%Q) rhythm → 0 ≤ ticks_per_beat self → 0 ≤ ct →
  Forall (λ m, 0 ≤ msg_time m) (melody_events self rhythm velocity melody j ct).
Proof.
  intros Hr Ht. revert j ct.
  induction melody as [|name melody IH]; intros j ct Hct; simpl; [constructor|].
  pose proof (beats_to_ticks_nonneg self (beat_at rhythm j)
                (beat_at_nonneg rhythm j Hr) Ht).
  destruct (String.eqb name "rest"); [apply IH; lia|].
  repeat constructor; simpl; [done..|]. by apply IH.
Qed.

Lemma melody_pending_last (melody : list string) (name : string) (j : nat) (ct : Z) :
  last melody = Some name → String.eqb name "rest" = false →
  melody_pending self rhythm melody j ct = 0.
Proof.
  intros Hl Hn. revert j ct Hl.
  induction melody as [|a [|b l] IH]; intros j ct Hl; [done| |].
  - injection Hl as ->. simpl. by rewrite Hn.
  - change (last (a :: b :: l)) with (last (b :: l)) in Hl.
    change (melody_pending self rhythm (a :: b :: l) j ct)
      with (if String.eqb a "rest"
            then melody_pending self rhythm (b :: l) (S j)
                   (ct + beats_to_ticks self (beat_at rhythm j))
            else melody_pending self rhythm (b :: l) (S j) 0).
    destruct (String.eqb a "rest"); by apply IH.
Qed.

Lemma bass_events_length (hold : Z) (bass : list string) (ct : Z) :
  length (bass_events self velocity hold bass ct) = (2 * length bass)%nat.
Proof.
  revert ct. induction bass as [|name bass IH]; intros ct; simpl; [done|].
  rewrite IH. lia.
Qed.

Lemma bass_events_messages (hold : Z) (bass : list string) (ct : Z) :
  Forall (λ m, msg_channel m = 2 ∧
               (∃ name, name ∈ bass ∧ msg_note m = pitch_of self name) ∧
               msg_velocity m = (if is_note_on m then velocity else 0))
    (bass_events self velocity hold bass ct).
Proof.
  revert ct. induction bass as [|name bass IH]; intros ct; simpl; [constructor|].
  repeat constructor; simpl; [exists name; split; [left|done]..|].
  eapply Forall_impl; [apply IH|]. intros m (Hc & (n & Hn & Hp) & Hv).
  split_and!; [done| |done]. exists n. split; [by right|done].
Qed.

Lemma bass_events_total_time (hold : Z) (bass : list string) (ct : Z) :
  bass ≠ [] →
  total_time (bass_events self velocity hold bass ct)
  = ct + Z.of_nat (length bass) * hold.
Proof.
  intros Hne. revert ct Hne.
  induction bass as [|a [|b l] IH]; intros ct Hne; [done| |].
  - unfold total_time. simpl. lia.
  - change (bass_events self velocity hold (a :: b :: l) ct)
      with (note_on 2 (pitch_of self a) velocity ct
              :: note_off 2 (pitch_of self a) 0 hold
              :: bass_events self velocity hold (b :: l) 0).
    change (total_time (?m :: ?m' :: ?r))
      with (msg_time m + (msg_time m' + total_time r)).
    rewrite IH by done. simpl msg_time. simpl length. lia.
Qed.
End EventFacts.

(** X8: when [add_melody] returns, it has appended two messages for each
    token that is not "rest", and none for a rest. *)
Theorem add_melody_length (self : MidiConverter) track (melody : list string)
    (rhythm : list Q) (velocity time_offset : Z) out track' out' :
  add_melody self track melody rhythm velocity time_offset out = (Ok track', out') →
  length track' = (length track + 2 * length (pitched melody))%nat.
Proof.
  intros H. apply add_melody_events in H as ->.
  by rewrite length_app, melody_events_length.
Qed.

Lemma add_melody_length_witness :
  add_melody MidiConverter_init [] ["D4"; "rest"; "F4"] [0.5; 1.0]%Q 90 7 []
    = (Ok [note_on 1 62 90 7; note_off 1 62 0 240;
           note_on 1 65 90 480; note_off 1 65 0 240], []) ∧
  length [note_on 1 62 90 7; note_off 1 62 0 240;
          note_on 1 65 90 480; note_off 1 65 0 240]
  = (length (@nil Message) + 2 * length (pitched ["D4"; "rest"; "F4"]))%nat.
Proof.
  split; [reflexivity|].
  apply (add_melody_length MidiConverter_init [] ["D4"; "rest"; "F4"]
           [0.5; 1.0]%Q 90 7 [] _ []).
  reflexivity.
Defined.

(** X9: [add_bass_line] has no rests: when it returns, it has appended
    two messages for every token, "rest" included. *)
Theorem add_bass_line_length (self : MidiConverter) track (bass : list string)
    (velocity time_offset : Z) out track' out' :
  add_bass_line self track bass velocity time_offset out = (Ok track', out') →
  length track' = (length track + 2 * length bass)%nat.
Proof.
  intros H. apply add_bass_line_events in H as ->.
  by rewrite length_app, bass_events_length.
Qed.

Lemma add_bass_line_length_witness :
  add_bass_line MidiConverter_init [] ["D2"; "rest"] 85 0 []
    = (Ok [note_on 2 38 85 0; note_off 2 38 0 1920;
           note_on 2 60 85 0; note_off 2 60 0 1920], []) ∧
  length [note_on 2 38 85 0; note_off 2 38 0 1920;
          note_on 2 60 85 0; note_off 2 60 0 1920]
  = (length (@nil Message) + 2 * length ["D2"; "rest"])%nat.
Proof.
  split; [reflexivity|].
  apply (add_bass_line_length MidiConverter_init [] ["D2"; "rest"] 85 0 [] _ []).
  reflexivity.
Defined.

(** X10: every message [add_melody] appends is on channel 1, whatever
    track it is given; its pitch is that of a token of the melody, in
    0..127; a [note_on] has the velocity asked for and a [note_off] has
    velocity 0. *)
Theorem add_melody_messages track (melody : list string) (rhythm : list Q)
    (velocity time_offset : Z) out track' out' :
  add_melody MidiConverter_init track melody rhythm velocity time_offset out
    = (Ok track', out') →
  ∃ evs, track' = track ++ evs ∧
    Forall (λ m, msg_channel m = 1 ∧ 0 ≤ msg_note m ≤ 127 ∧
                 msg_velocity m = (if is_note_on m then velocity else 0)) evs.
Proof.
  intros H. apply add_melody_events in H as ->. eexists. split; [done|].
  eapply Forall_impl; [apply melody_events_messages|].
  intros m (Hc & (n & _ & Hn) & Hv). split; [done|]. split; [|done].
  rewrite Hn. pose proof (pitch_of_init_bounds n). lia.
Qed.

Lemma add_melody_messages_witness :
  add_melody MidiConverter_init [] ["D4"; "rest"; "F4"] [0.5; 1.0]%Q 90 7 []
    = (Ok [note_on 1 62 90 7; note_off 1 62 0 240;
           note_on 1 65 90 480; note_off 1 65 0 240], []) ∧
  ∃ evs, [note_on 1 62 90 7; note_off 1 62 0 240;
          note_on 1 65 90 480; note_off 1 65 0 240] = [] ++ evs ∧
    Forall (λ m, msg_channel m = 1 ∧ 0 ≤ msg_note m ≤ 127 ∧
                 msg_velocity m = (if is_note_on m then 90 else 0)) evs.
Proof.
  split; [reflexivity|].
  apply (add_melody_messages [] ["D4"; "rest"; "F4"] [0.5; 1.0]%Q 90 7 [] _ []).
  reflexivity.
Defined.

(** X11: every message [add_bass_line] appends is on channel 2, with a
    pitch in 0..127, the velocity asked for on a [note_on] and 0 on a
    [note_off]. *)
Theorem add_bass_line_messages track (bass : list string)
    (velocity time_offset : Z) out track' out' :
  add_bass_line MidiConverter_init track bass velocity time_offset out
    = (Ok track', out') →
  ∃ evs, track' = track ++ evs ∧
    Forall (λ m, msg_channel m = 2 ∧ 0 ≤ msg_note m ≤ 127 ∧
                 msg_velocity m = (if is_note_on m then velocity else 0)) evs.
Proof.
  intros H. apply add_bass_line_events in H as ->. eexists. split; [done|].
  eapply Forall_impl; [apply bass_events_messages|].
  intros m (Hc & (n & _ & Hn) & Hv). split; [done|]. split; [|done].
  rewrite Hn. pose proof (pitch_of_init_bounds n). lia.
Qed.

Lemma add_bass_line_messages_witness :
  add_bass_line MidiConverter_init [] ["D2"; "rest"] 85 0 []
    = (Ok [note_on 2 38 85 0; note_off 2 38 0 1920;
           note_on 2 60 85 0; note_off 2 60 0 1920], []) ∧
  ∃ evs, [note_on 2 38 85 0; note_off 2 38 0 1920;
          note_on 2 60 85 0; note_off 2 60 0 1920] = [] ++ evs ∧
    Forall (λ m, msg_channel m = 2 ∧ 0 ≤ msg_note m ≤ 127 ∧
                 msg_velocity m = (if is_note_on m then 85 else 0)) evs.
Proof.
  split; [reflexivity|].
  apply (add_bass_line_messages [] ["D2"; "rest"] 85 0 [] _ []).
  reflexivity.
Defined.

(** ** Time, rests and composition *)

Section Composition.
Variable self : MidiConverter.

Lemma py_mod_ok (a b : Z) out : b ≠ 0 → py_mod a b out = (Ok (a mod b), out).
Proof. intros Hb. apply returns_silent; [by apply py_mod_returns | apply silent_py_mod]. Qed.

Lemma rhythm_read_ok (rhythm : list Q) (j : nat) out :
  rhythm ≠ [] →
  list_getitem rhythm (Z.of_nat j mod len rhythm) out = (Ok (beat_at rhythm j), out).
Proof.
  intros Hr. apply returns_silent;
    [by apply list_getitem_beat | apply silent_list_getitem].
Qed.

Lemma len_nonzero {A : Type} (l : list A) : l ≠ [] → len l ≠ 0.
Proof. unfold len. destruct l; [done|]. simpl. lia. Qed.

(** Rendering a melody in two parts. *)
Lemma melody_loop_app (rhythm : list Q) (velocity : Z) (l1 l2 : list string) :
  ∀ (j : nat) track ct out,
    melody_loop self rhythm velocity (l1 ++ l2) (Z.of_nat j) track ct out
    = match melody_loop self rhythm velocity l1 (Z.of_nat j) track ct out with
      | (Ok (tr, c), o) =>
          melody_loop self rhythm velocity l2 (Z.of_nat (j + length l1)) tr c o
      | (Raise e, o) => (Raise e, o)
      end.
Proof.
  induction l1 as [|name l1 IH]; intros j track ct out.
  - simpl. by rewrite Nat.add_0_r.
  - simpl. replace (Z.of_nat j + 1) with (Z.of_nat (S j)) by lia.
    replace (j + S (length l1))%nat with (S j + length l1)%nat by lia.
    destruct (String.eqb name "rest"); unfold mbind, M_bind.
    + destruct (py_mod _ _ out) as [[k|e] o]; [|done].
      destruct (list_getitem _ _ o) as [[b|e] o']; [|done]. apply IH.
    + destruct (note_name_to_midi _ _ out) as [[n|e] o0]; [|done].
      destruct (py_mod _ _ o0) as [[k|e] o]; [|done].
      destruct (list_getitem _ _ o) as [[b|e] o']; [|done].
      destruct (Message_note_on _ _ _ _ o') as [[on|e] o1]; [|done].
      destruct (Message_note_off _ _ _ _ o1) as [[off|e] o2]; [|done].
      apply IH.
Qed.

(** The rhythm index only counts modulo the length of the rhythm. *)
Lemma melody_loop_shift (rhythm : list Q) (velocity : Z) (l : list string) (k : nat) :
  ∀ (j : nat) track ct out,
    melody_loop self rhythm velocity l (Z.of_nat (j + k * length rhythm)) track ct out
    = melody_loop self rhythm velocity l (Z.of_nat j) track ct out.
Proof.
  induction l as [|name l IH]; intros j track ct out; [done|].
  simpl.
  replace (Z.of_nat (j + k * length rhythm) + 1)
    with (Z.of_nat (S j + k * length rhythm)) by lia.
  replace (Z.of_nat j + 1) with (Z.of_nat (S j)) by lia.
  assert (py_mod (Z.of_nat (j + k * length rhythm)) (len rhythm)
          = py_mod (Z.of_nat j) (len rhythm)) as Hmod.
  { unfold py_mod, len. destruct (Z.of_nat (length rhythm) =? 0); [done|].
    by rewrite Nat2Z.inj_add, Nat2Z.inj_mul, Z_mod_plus_full. }
  rewrite Hmod.
  destruct (String.eqb name "rest"); unfold mbind, M_bind.
  - destruct (py_mod _ _ out) as [[i|e] o]; [|done].
    destruct (list_getitem _ _ o) as [[b|e] o']; [|done]. apply IH.
  - destruct (note_name_to_midi _ _ out) as [[n|e] o0]; [|done].
    destruct (py_mod _ _ o0) as [[i|e] o]; [|done].
    destruct (list_getitem _ _ o) as [[b|e] o']; [|done].
    destruct (Message_note_on _ _ _ _ o') as [[on|e] o1]; [|done].
    destruct (Message_note_off _ _ _ _ o1) as [[off|e] o2]; [|done].
    apply IH.
Qed.

Lemma bass_loop_app (velocity : Z) (beats : Q) (l1 l2 : list string) :
  ∀ track ct out,
    bass_loop self velocity beats (l1 ++ l2) track ct out
    = match bass_loop self velocity beats l1 track ct out with
      | (Ok (tr, c), o) => bass_loop self velocity beats l2 tr c o
      | (Raise e, o) => (Raise e, o)
      end.
Proof.
  induction l1 as [|name l1 IH]; intros track ct out; [done|].
  simpl. unfold mbind, M_bind.
  destruct (note_name_to_midi _ _ out) as [[n|e] o0]; [|done].
  destruct (Message_note_on _ _ _ _ o0) as [[on|e] o1]; [|done].
  destruct (Message_note_off _ _ _ _ o1) as [[off|e] o2]; [|done].
  apply IH.
Qed.

Lemma bass_loop_pending (velocity : Z) (beats : Q) (bass : list string) :
  bass ≠ [] →
  ∀ track ct out track' ct' out',
    bass_loop self velocity beats bass track ct out = (Ok (track', ct'), out') →
    ct' = 0.
Proof.
  induction bass as [|a [|b l] IH]; intros Hne track ct out track' ct' out' H; [done| |].
  - simpl in H. do 3 bind_inv H. by injection H as _ <- _.
  - change (bass_loop self velocity beats (a :: b :: l) track ct out)
      with ((midi_note ← note_name_to_midi self a;
             on ← Message_note_on 2 midi_note velocity ct;
             off ← Message_note_off 2 midi_note 0 (beats_to_ticks self beats);
             bass_loop self velocity beats (b :: l) ((track ++ [on]) ++ [off]) 0) out)
      in H.
    do 3 bind_inv H. by apply IH in H.
Qed.

(** X12: in [add_melody] a rest plays nothing but is not lost when a note
    follows: for a melody whose last token is not "rest", the delta-times
    appended add up to the offset plus the ticks of the durations read
    for all the tokens, rests included. *)
Theorem add_melody_total_time track (melody : list string) (rhythm : list Q)
    (velocity time_offset : Z) (name : string) out track' out' :
  last melody = Some name → String.eqb name "rest" = false →
  add_melody self track melody rhythm velocity time_offset out = (Ok track', out') →
  ∃ evs, track' = track ++ evs ∧
    total_time evs
    = time_offset
      + Zsum (map (beats_to_ticks self) (beats_from rhythm 0 (length melody))).
Proof.
  intros Hl Hn H. unfold add_melody in H. bind_inv H. destruct a as [tr ct].
  injection H as <- _. change 0 with (Z.of_nat 0) in E.
  pose proof (melody_loop_events _ _ _ _ _ _ _ _ _ _ _ E) as [_ Hct].
  rewrite (melody_pending_last _ _ _ _ _ _ Hl Hn) in Hct.
  apply melody_loop_inv in E as (evs & -> & _ & Ht).
  exists evs. split; [done|]. lia.
Qed.

(** X13: a rest at the end of the melody is dropped: with a rhythm to
    read, of durations that are binary fractions with an exact product,
    [add_melody] does on a melody followed by "rest" exactly what it does
    on the melody. *)
Theorem add_melody_trailing_rest track (melody : list string) (rhythm : list Q)
    (velocity time_offset : Z) out :
  rhythm ≠ [] → Forall (λ q, exact_beats self q = true) rhythm →
  add_melody self track (melody ++ ["rest"]) rhythm velocity time_offset out
  = add_melody self track melody rhythm velocity time_offset out.
Proof.
  intros Hr _. unfold add_melody, mbind, M_bind.
  change 0 with (Z.of_nat 0). rewrite melody_loop_app.
  destruct (melody_loop _ _ _ melody _ _ _ _) as [[[tr c]|e] o]; [|done].
  simpl. unfold mbind, M_bind.
  rewrite py_mod_ok by by apply len_nonzero.
  by rewrite rhythm_read_ok.
Qed.

(** X14: [add_bass_line] on a bass line in two parts, the first not
    empty, is [add_bass_line] on the first part and then, from offset 0,
    on the second. *)
Theorem add_bass_line_app track (l1 l2 : list string) (velocity time_offset : Z) out :
  l1 ≠ [] →
  add_bass_line self track (l1 ++ l2) velocity time_offset out
  = (tr ← add_bass_line self track l1 velocity time_offset;
     add_bass_line self tr l2 velocity 0) out.
Proof.
  intros Hne. unfold add_bass_line, mbind, M_bind. rewrite bass_loop_app.
  destruct (bass_loop _ _ _ l1 _ _ _) as [[[tr c]|e] o] eqn:E; [|done].
  simpl. by rewrite (bass_loop_pending _ _ _ Hne _ _ _ _ _ _ E).
Qed.

(** X15: [add_melody] on a melody in two parts is [add_melody] on the
    first part and then, from offset 0, on the second, when the first
    part ends with a note and runs through the rhythm a whole number of
    times. *)
Theorem add_melody_app track (l1 l2 : list string) (rhythm : list Q)
    (velocity time_offset : Z) (name : string) (k : nat) out :
  last l1 = Some name → String.eqb name "rest" = false →
  length l1 = (k * length rhythm)%nat →
  add_melody self track (l1 ++ l2) rhythm velocity time_offset out
  = (tr ← add_melody self track l1 rhythm velocity time_offset;
     add_melody self tr l2 rhythm velocity 0) out.
Proof.
  intros Hl Hn Hk. unfold add_melody, mbind, M_bind.
  change 0 with (Z.of_nat 0) at 1 2. rewrite melody_loop_app.
  destruct (melody_loop _ _ _ l1 _ _ _ _) as [[[tr c]|e] o] eqn:E; [|done].
  apply melody_loop_events in E as [_ ->].
  rewrite (melody_pending_last _ _ _ _ _ _ Hl Hn), Hk.
  by rewrite (melody_loop_shift rhythm velocity l2 k 0).
Qed.

(** X16: the renderers check nothing before they divide.  On an empty
    chord-name sequence [add_chord_progression] raises ZeroDivisionError
    for every bar count.  On an empty rhythm sequence and a melody that
    is not empty, [add_melody] raises ZeroDivisionError at the first
    token, after the warning of that token if it has one; when standard
    output cannot encode that warning, the UnicodeEncodeError of its
    [print] comes first. *)
Theorem empty_sequence_raises track (bars : Z) (name : string)
    (rest : list string) (velocity time_offset : Z) out :
  add_chord_progression self track [] bars velocity time_offset out
  = (Raise ZeroDivisionError, out)
  ∧ add_melody self track (name :: rest) [] velocity time_offset out
    = match print_error out name with
      | None => (Raise ZeroDivisionError, with_lines out (warning_of name))
      | Some msg => (Raise (UnicodeEncodeError msg), out)
      end.
Proof.
  split; [done|].
  unfold add_melody, mbind, M_bind. simpl.
  destruct (String.eqb_spec name "rest") as [->|_].
  - by rewrite print_error_quiet, with_lines_nil.
  - unfold mbind, M_bind. rewrite note_name_to_midi_exact.
    by destruct (print_error out name).
Qed.
End Composition.

Lemma add_melody_total_time_witness :
  last ["rest"; "D4"; "rest"; "F4"] = Some "F4" ∧
  String.eqb "F4" "rest" = false ∧
  add_melody MidiConverter_init [] ["rest"; "D4"; "rest"; "F4"] [0.5; 1.0]%Q 90 7 []
    = (Ok [note_on 1 62 90 247; note_off 1 62 0 480;
           note_on 1 65 90 240; note_off 1 65 0 480], []) ∧
  ∃ evs, [note_on 1 62 90 247; note_off 1 62 0 480;
          note_on 1 65 90 240; note_off 1 65 0 480] = [] ++ evs ∧
    total_time evs
    = 7 + Zsum (map (beats_to_ticks MidiConverter_init)
                  (beats_from [0.5; 1.0]%Q 0 (length ["rest"; "D4"; "rest"; "F4"]))).
Proof.
  do 3 (split; [reflexivity|]).
  apply (add_melody_total_time MidiConverter_init [] ["rest"; "D4"; "rest"; "F4"]
           [0.5; 1.0]%Q 90 7 "F4" [] _ []); reflexivity.
Defined.

Lemma add_melody_trailing_rest_witness :
  [0.5%Q] ≠ [] ∧ Forall (λ q, exact_beats MidiConverter_init q = true) [0.5%Q] ∧
  add_melody MidiConverter_init [] (["D4"] ++ ["rest"]) [0.5%Q] 90 0 []
  = add_melody MidiConverter_init [] ["D4"] [0.5%Q] 90 0 [].
Proof.
  assert (Forall (λ q, exact_beats MidiConverter_init q = true) [0.5%Q]) as H
    by (by repeat constructor).
  split; [discriminate|]. split; [exact H|].
  apply (add_melody_trailing_rest MidiConverter_init [] ["D4"] [0.5%Q] 90 0 []);
    [discriminate | exact H].
Defined.

Lemma add_bass_line_app_witness :
  ["D2"] ≠ [] ∧
  add_bass_line MidiConverter_init [] (["D2"] ++ ["F1"]) 85 3 []
  = (tr ← add_bass_line MidiConverter_init [] ["D2"] 85 3;
     add_bass_line MidiConverter_init tr ["F1"] 85 0) [].
Proof.
  split; [discriminate|].
  apply (add_bass_line_app MidiConverter_init [] ["D2"] ["F1"] 85 3 []).
  discriminate.
Defined.

Lemma add_melody_app_witness :
  last ["rest"; "D4"] = Some "D4" ∧ String.eqb "D4" "rest" = false ∧
  length ["rest"; "D4"] = (1 * length [0.5; 1.0]%Q)%nat ∧
  add_melody MidiConverter_init [] (["rest"; "D4"] ++ ["F4"]) [0.5; 1.0]%Q 90 3 []
  = (tr ← add_melody MidiConverter_init [] ["rest"; "D4"] [0.5; 1.0]%Q 90 3;
     add_melody MidiConverter_init tr ["F4"] [0.5; 1.0]%Q 90 0) [].
Proof.
  do 3 (split; [reflexivity|]).
  apply (add_melody_app MidiConverter_init [] ["rest"; "D4"] ["F4"] [0.5; 1.0]%Q
           90 3 "D4" 1 []); reflexivity.
Defined.


(** ** More on the chords *)

Lemma chord_sequence_of_ok (chord_names : list string) (bars : Z) out :
  chord_names ≠ [] →
  chord_sequence_of chord_names bars out
  = (Ok (list_slice_to (list_mul chord_names (bars / len chord_names + 1)) bars),
     out).
Proof.
  intros Hne. unfold chord_sequence_of, floordiv.
  by destruct (Z.eqb_spec (len chord_names) 0) as [E|_]; [apply len_nonzero in E|].
Qed.

Lemma cyclic_slice_Forall {A : Type} (P : A → Prop) (l : list A) (bars : Z) :
  l ≠ [] → Forall P l →
  Forall P (list_slice_to (list_mul l (bars / len l + 1)) bars).
Proof.
  intros Hne HP. destruct (cyclic_slice l bars Hne) as [Hlen Hi].
  apply Forall_lookup. intros i x Hx.
  rewrite Hi in Hx by (apply lookup_lt_Some in Hx; lia).
  by eapply (proj1 (Forall_lookup P l)).
Qed.

Section MoreChords.
Variable self : MidiConverter.
Variable velocity : Z.

Lemma chord_notes_on_events (ps : list Z) :
  ∀ track ct out track' ct' out',
    chord_notes_on ps velocity track ct out = (Ok (track', ct'), out') →
    track' = track ++ chord_ons velocity ct ps.
Proof.
  induction ps as [|p ps IH]; intros track ct out track' ct' out' H.
  - injection H as <- _ _. by rewrite app_nil_r.
  - simpl in H. bind_inv H. apply Message_note_on_inv in E as ->.
    apply IH in H as ->. simpl. by rewrite chord_ons_zero, <- app_assoc.
Qed.

Lemma chord_notes_off_events (ps : list Z) :
  ∀ track hold out track' hold' out',
    chord_notes_off ps track hold out = (Ok (track', hold'), out') →
    track' = track ++ chord_offs hold ps.
Proof.
  induction ps as [|p ps IH]; intros track hold out track' hold' out' H.
  - injection H as <- _ _. by rewrite app_nil_r.
  - simpl in H. bind_inv H. apply Message_note_off_inv in E as ->.
    apply IH in H as ->. simpl. by rewrite chord_offs_zero, <- app_assoc.
Qed.

Lemma chord_loop_events (beats : Q) (chord_sequence : list string) :
  ∀ track ct out track' ct' out',
    chord_loop self velocity beats chord_sequence track ct out
      = (Ok (track', ct'), out') →
    track' = track ++ concat (chord_blocks self velocity (beats_to_ticks self beats)
                                chord_sequence ct).
Proof.
  induction chord_sequence as [|c l IH]; intros track ct out track' ct' out' H.
  - injection H as <- _ _. by rewrite app_nil_r.
  - simpl in H. simpl. destruct (chords self !! c) as [ps|].
    + bind_inv H. destruct a as [tr1 c1]. apply chord_notes_on_events in E as ->.
      bind_inv H. destruct a as [tr2 c2]. apply chord_notes_off_events in E as ->.
      apply IH in H as ->. unfold chord_block. simpl. by rewrite <- !app_assoc.
    + by apply IH in H.
Qed.

Lemma add_chord_progression_events track (chord_names : list string)
    (bars time_offset : Z) out track' out' :
  add_chord_progression self track chord_names bars velocity time_offset out
    = (Ok track', out') →
  chord_names ≠ [] ∧
  track' = track ++ concat (chord_blocks self velocity (beats_to_ticks self 4)
                              (list_slice_to
                                 (list_mul chord_names (bars / len chord_names + 1))
                                 bars)
                              time_offset).
Proof.
  unfold add_chord_progression. intros H.
  assert (chord_names ≠ []) as Hne.
  { intros ->. bind_inv H. discriminate. }
  split; [done|]. bind_inv H. rewrite chord_sequence_of_ok in E by done.
  injection E as <- _. bind_inv H. destruct a as [tr c].
  injection H as <- _. by apply chord_loop_events in E.
Qed.

Lemma chord_loop_unknown (beats : Q) (chord_sequence : list string) track ct out :
  Forall (λ c, chords self !! c = None) chord_sequence →
  chord_loop self velocity beats chord_sequence track ct out = (Ok (track, ct), out).
Proof.
  induction 1 as [|c l Hc Hl IH]; [done|]. by rewrite chord_loop_skip.
Qed.

Lemma chord_blocks_messages (hold : Z) (chord_sequence : list string) (ct : Z) :
  Forall (λ m, msg_channel m = 0 ∧
               (∃ c ps, c ∈ chord_sequence ∧ chords self !! c = Some ps
                        ∧ msg_note m ∈ ps) ∧
               msg_velocity m = (if is_note_on m then velocity else 0))
    (concat (chord_blocks self velocity hold chord_sequence ct)).
Proof.
  revert ct. induction chord_sequence as [|c l IH]; intros ct; simpl; [constructor|].
  assert (∀ ct', Forall (λ m, msg_channel m = 0 ∧
               (∃ c0 ps, c0 ∈ c :: l ∧ chords self !! c0 = Some ps
                         ∧ msg_note m ∈ ps) ∧
               msg_velocity m = (if is_note_on m then velocity else 0))
            (concat (chord_blocks self velocity hold l ct'))) as Hrest.
  { intros ct'. eapply Forall_impl; [apply IH|].
    intros m (Hc & (c0 & ps & Hin & Hps & Hn) & Hv). split_and!; [done| |done].
    exists c0, ps. split_and!; [by right|done..]. }
  destruct (chords self !! c) as [ps|] eqn:E; simpl; [|apply Hrest].
  apply Forall_app. split; [|apply Hrest]. unfold chord_block.
  apply Forall_app. split.
  - destruct ps as [|p ps]; [constructor|]. simpl. constructor.
    + split_and!; [done| |done]. exists c, (p :: ps). split_and!; [left|done|left].
    + apply Forall_fmap, Forall_forall. intros n Hn. simpl.
      split_and!; [done| |done]. exists c, (p :: ps).
      split_and!; [left|done|by right].
  - destruct ps as [|p ps]; [constructor|]. simpl. constructor.
    + split_and!; [done| |done]. exists c, (p :: ps). split_and!; [left|done|left].
    + apply Forall_fmap, Forall_forall. intros n Hn. simpl.
      split_and!; [done| |done]. exists c, (p :: ps).
      split_and!; [left|done|by right].
Qed.

Lemma chord_blocks_nonneg (hold : Z) (chord_sequence : list string) (ct : Z) :
  0 ≤ hold → 0 ≤ ct →
  Forall (λ m, 0 ≤ msg_time m)
    (concat (chord_blocks self velocity hold chord_sequence ct)).
Proof.
  intros Hh. revert ct.
  induction chord_sequence as [|c l IH]; intros ct Hct; simpl; [constructor|].
  destruct (chords self !! c) as [ps|]; simpl; [|by apply IH].
  apply Forall_app. split; [|by apply IH]. unfold chord_block.
  apply Forall_app. split; (destruct ps as [|p ps]; [constructor|]); simpl;
    (constructor; [done|]); apply Forall_fmap, Forall_forall; by intros.
Qed.

(** X17: with a bar count of zero or less, [add_chord_progression]
    returns the track as it got it and prints nothing, whatever the
    (non-empty) chord names and the velocity. *)
Theorem add_chord_progression_no_bars track (chord_names : list string)
    (bars time_offset : Z) out :
  chord_names ≠ [] → bars ≤ 0 →
  add_chord_progression self track chord_names bars velocity time_offset out
  = (Ok track, out).
Proof.
  intros Hne Hb. unfold add_chord_progression.
  rewrite (bind_Ok _ _ _ _ _ (chord_sequence_of_ok chord_names bars out Hne)).
  destruct (cyclic_slice chord_names bars Hne) as [Hlen _].
  destruct (list_slice_to _ _) as [|c l]; [done|]. simpl in Hlen. lia.
Qed.

(** X18: when none of the chord names is in the chord table,
    [add_chord_progression] returns the track as it got it: nothing is
    appended and the time offset is lost. *)
Theorem add_chord_progression_all_unknown track (chord_names : list string)
    (bars time_offset : Z) out :
  chord_names ≠ [] → Forall (λ c, chords self !! c = None) chord_names →
  add_chord_progression self track chord_names bars velocity time_offset out
  = (Ok track, out).
Proof.
  intros Hne Hu. unfold add_chord_progression.
  rewrite (bind_Ok _ _ _ _ _ (chord_sequence_of_ok chord_names bars out Hne)).
  rewrite (bind_Ok _ _ _ _ _
             (chord_loop_unknown 4 _ track time_offset out
                (cyclic_slice_Forall _ chord_names bars Hne Hu))).
  done.
Qed.
End MoreChords.

Lemma add_chord_progression_no_bars_witness :
  ["Dm"; "F"] ≠ [] ∧ -3 ≤ 0 ∧
  add_chord_progression MidiConverter_init [note_on 0 1 2 3] ["Dm"; "F"] (-3) 80 5 []
  = (Ok [note_on 0 1 2 3], []).
Proof.
  split; [discriminate|]. split; [lia|].
  apply (add_chord_progression_no_bars MidiConverter_init 80 [note_on 0 1 2 3]
           ["Dm"; "F"] (-3) 5 []); [discriminate | lia].
Defined.

Lemma add_chord_progression_all_unknown_witness :
  ["X"; "Y"] ≠ [] ∧
  Forall (λ c, chords MidiConverter_init !! c = None) ["X"; "Y"] ∧
  add_chord_progression MidiConverter_init [note_on 0 1 2 3] ["X"; "Y"] 4 80 5 []
  = (Ok [note_on 0 1 2 3], []).
Proof.
  assert (Forall (λ c, chords MidiConverter_init !! c = None) ["X"; "Y"]) as H
    by (repeat constructor).
  split; [discriminate|]. split; [exact H|].
  apply (add_chord_progression_all_unknown MidiConverter_init 80 [note_on 0 1 2 3]
           ["X"; "Y"] 4 5 []); [discriminate | exact H].
Defined.

(** X19: every message [add_chord_progression] appends is on channel 0
    and carries a pitch of the table entry of one of the chord names
    given, in 0..127; a [note_on] has the velocity asked for and a
    [note_off] has velocity 0. *)
Theorem add_chord_progression_messages track (chord_names : list string)
    (bars velocity time_offset : Z) out track' out' :
  add_chord_progression MidiConverter_init track chord_names bars velocity
    time_offset out = (Ok track', out') →
  ∃ evs, track' = track ++ evs ∧
    Forall (λ m, msg_channel m = 0 ∧
                 (∃ c ps, c ∈ chord_names ∧
                          chords MidiConverter_init !! c = Some ps ∧
                          msg_note m ∈ ps) ∧
                 0 ≤ msg_note m ≤ 127 ∧
                 msg_velocity m = (if is_note_on m then velocity else 0)) evs.
Proof.
  intros H. apply add_chord_progression_events in H as [Hne ->].
  eexists. split; [done|].
  eapply Forall_impl; [apply chord_blocks_messages|].
  intros m (Hc & (c & ps & Hin & Hps & Hn) & Hv).
  split; [done|]. split; [|split; [|done]].
  - exists c, ps. split_and!; [|done..].
    assert (Forall (λ c, c ∈ chord_names)
              (list_slice_to (list_mul chord_names (bars / len chord_names + 1)) bars))
      as Hall.
    { apply cyclic_slice_Forall; [done|]. by apply Forall_forall. }
    rewrite Forall_forall in Hall. by apply Hall.
  - pose proof (chords_init_bytes c ps Hps) as Hb.
    rewrite Forall_forall in Hb. apply Hb in Hn. by apply data_byte_spec.
Qed.

Lemma add_chord_progression_messages_witness :
  add_chord_progression MidiConverter_init [] ["X"; "Dm"] 2 80 5 []
    = (Ok [note_on 0 62 80 5; note_on 0 65 80 0; note_on 0 69 80 0;
           note_off 0 62 0 1920; note_off 0 65 0 0; note_off 0 69 0 0], []) ∧
  ∃ evs, [note_on 0 62 80 5; note_on 0 65 80 0; note_on 0 69 80 0;
          note_off 0 62 0 1920; note_off 0 65 0 0; note_off 0 69 0 0] = [] ++ evs ∧
    Forall (λ m, msg_channel m = 0 ∧
                 (∃ c ps, c ∈ ["X"; "Dm"] ∧
                          chords MidiConverter_init !! c = Some ps ∧
                          msg_note m ∈ ps) ∧
                 0 ≤ msg_note m ≤ 127 ∧
                 msg_velocity m = (if is_note_on m then 80 else 0)) evs.
Proof.
  split; [reflexivity|].
  apply (add_chord_progression_messages [] ["X"; "Dm"] 2 80 5 [] _ []).
  reflexivity.
Defined.

(** X20: delta-times are never negative when nothing given is: with a
    time offset, ticks per beat and rhythm durations that are not
    negative, every message appended by any of the three renderers has a
    delta-time of 0 or more. *)
Theorem delta_times_nonneg (self : MidiConverter) track
    (chord_names : list string) (bars : Z) (melody : list string)
    (rhythm : list Q) (bass : list string) (velocity time_offset : Z)
    out track' out' :
  0 ≤ time_offset → 0 ≤ ticks_per_beat self → Forall (λ q, (0 <= q)%Q) rhythm →
  add_chord_progression self track chord_names bars velocity time_offset out
    = (Ok track', out')
  ∨ add_melody self track melody rhythm velocity time_offset out = (Ok track', out')
  ∨ add_bass_line self track bass velocity time_offset out = (Ok track', out') →
  ∃ evs, track' = track ++ evs ∧ Forall (λ m, 0 ≤ msg_time m) evs.
Proof.
  intros Ho Ht Hr.
  assert (0 ≤ beats_to_ticks self 4) as Hhold
    by (by apply beats_to_ticks_nonneg).
  intros [H|[H|H]].
  - apply add_chord_progression_events in H as [_ ->]. eexists. split; [done|].
    by apply chord_blocks_nonneg.
  - apply add_melody_events in H as ->. eexists. split; [done|].
    by apply melody_events_nonneg.
  - apply add_bass_line_events in H as ->. eexists. split; [done|].
    revert Ho. generalize time_offset.
    induction bass as [|n l IH]; intros ct Hct; simpl; [constructor|].
    repeat constructor; simpl; [done..|]. by apply IH.
Qed.

Lemma delta_times_nonneg_witness :
  0 ≤ 7 ∧ 0 ≤ ticks_per_beat MidiConverter_init ∧
  Forall (λ q, (0 <= q)%Q) [0.5; 1.0]%Q ∧
  add_melody MidiConverter_init [] ["D4"; "rest"; "F4"] [0.5; 1.0]%Q 90 7 []
    = (Ok [note_on 1 62 90 7; note_off 1 62 0 240;
           note_on 1 65 90 480; note_off 1 65 0 240], []) ∧
  ∃ evs, [note_on 1 62 90 7; note_off 1 62 0 240;
          note_on 1 65 90 480; note_off 1 65 0 240] = [] ++ evs ∧
         Forall (λ m, 0 ≤ msg_time m) evs.
Proof.
  assert (0 ≤ ticks_per_beat MidiConverter_init) as Ht by (by vm_compute).
  assert (Forall (λ q, (0 <= q)%Q) [0.5; 1.0]%Q) as Hr
    by (repeat constructor; by vm_compute).
  split; [lia|]. split; [exact Ht|]. split; [exact Hr|]. split; [reflexivity|].
  apply (delta_times_nonneg MidiConverter_init [] [] 0 ["D4"; "rest"; "F4"]
           [0.5; 1.0]%Q [] 90 7 [] _ []); [lia | exact Ht | exact Hr |].
  right. left. reflexivity.
Defined.

(** X21: the bass line lasts one whole note per token: when
    [add_bass_line] returns on a bass line that is not empty, the
    delta-times appended add up to the offset plus the ticks of four
    beats for each token. *)
Theorem add_bass_line_total_time (self : MidiConverter) track (bass : list string)
    (velocity time_offset : Z) out track' out' :
  bass ≠ [] →
  add_bass_line self track bass velocity time_offset out = (Ok track', out') →
  ∃ evs, track' = track ++ evs ∧
    total_time evs = time_offset + Z.of_nat (length bass) * beats_to_ticks self 4.
Proof.
  intros Hne H. apply add_bass_line_events in H as ->. eexists. split; [done|].
  by apply bass_events_total_time.
Qed.

Lemma add_bass_line_total_time_witness :
  ["D2"; "rest"] ≠ [] ∧
  add_bass_line MidiConverter_init [] ["D2"; "rest"] 85 3 []
    = (Ok [note_on 2 38 85 3; note_off 2 38 0 1920;
           note_on 2 60 85 0; note_off 2 60 0 1920], []) ∧
  ∃ evs, [note_on 2 38 85 3; note_off 2 38 0 1920;
          note_on 2 60 85 0; note_off 2 60 0 1920] = [] ++ evs ∧
    total_time evs
    = 3 + Z.of_nat (length ["D2"; "rest"]) * beats_to_ticks MidiConverter_init 4.
Proof.
  split; [discriminate|]. split; [reflexivity|].
  apply (add_bass_line_total_time MidiConverter_init [] ["D2"; "rest"] 85 3 [] _ []);
    [discriminate | reflexivity].
Defined.

(** ** The sections of the table, rendered *)

Section SilentLoops.
Variable self : MidiConverter.

Lemma silent_chord_notes_on (ps : list Z) (velocity : Z) :
  ∀ track ct, silent (chord_notes_on ps velocity track ct).
Proof.
  induction ps as [|p ps IH]; intros track ct; [apply silent_ret|].
  simpl. apply silent_bind; [apply silent_Message_note_on|]. intros m. apply IH.
Qed.

Lemma silent_chord_notes_off (ps : list Z) :
  ∀ track hold, silent (chord_notes_off ps track hold).
Proof.
  induction ps as [|p ps IH]; intros track hold; [apply silent_ret|].
  simpl. apply silent_bind; [apply silent_Message_note_off|]. intros m. apply IH.
Qed.

Lemma silent_chord_loop (velocity : Z) (beats : Q) (chord_sequence : list string) :
  ∀ track ct, silent (chord_loop self velocity beats chord_sequence track ct).
Proof.
  induction chord_sequence as [|c l IH]; intros track ct; [apply silent_ret|].
  simpl. destruct (chords self !! c) as [ps|]; [|apply IH].
  apply silent_bind; [apply silent_chord_notes_on|]. intros [tr1 c1].
  apply silent_bind; [apply silent_chord_notes_off|]. intros [tr2 c2]. apply IH.
Qed.

(** [add_chord_progression] never prints. *)
Lemma silent_add_chord_progression track chord_names bars velocity time_offset :
  silent (add_chord_progression self track chord_names bars velocity time_offset).
Proof.
  unfold add_chord_progression, chord_sequence_of.
  apply silent_bind.
  - apply silent_bind; [apply silent_floordiv|]. intros q. apply silent_ret.
  - intros cs. apply silent_bind; [apply silent_chord_loop|].
    intros [tr c]. apply silent_ret.
Qed.

Lemma silent_melody_loop (rhythm : list Q) (velocity : Z) (melody : list string) :
  Forall (λ t, warns t = false) melody →
  ∀ i track ct, silent (melody_loop self rhythm velocity melody i track ct).
Proof.
  induction 1 as [|name melody Hn Hm IH]; intros i track ct; [apply silent_ret|].
  simpl. destruct (String.eqb name "rest").
  - apply silent_bind; [apply silent_py_mod|]. intros k.
    apply silent_bind; [apply silent_list_getitem|]. intros b. apply IH.
  - apply silent_bind; [by apply silent_note_name_to_midi|]. intros n.
    apply silent_bind; [apply silent_py_mod|]. intros k.
    apply silent_bind; [apply silent_list_getitem|]. intros b.
    apply silent_bind; [apply silent_Message_note_on|]. intros on.
    apply silent_bind; [apply silent_Message_note_off|]. intros off. apply IH.
Qed.

Lemma silent_bass_loop (velocity : Z) (beats : Q) (bass : list string) :
  Forall (λ t, warns t = false) bass →
  ∀ track ct, silent (bass_loop self velocity beats bass track ct).
Proof.
  induction 1 as [|name bass Hn Hm IH]; intros track ct; [apply silent_ret|].
  simpl. apply silent_bind; [by apply silent_note_name_to_midi|]. intros n.
  apply silent_bind; [apply silent_Message_note_on|]. intros on.
  apply silent_bind; [apply silent_Message_note_off|]. intros off. apply IH.
Qed.

Lemma silent_add_melody track melody rhythm velocity time_offset :
  Forall (λ t, warns t = false) melody →
  silent (add_melody self track melody rhythm velocity time_offset).
Proof.
  intros Hm. unfold add_melody.
  apply silent_bind; [by apply silent_melody_loop|]. intros [tr c]. apply silent_ret.
Qed.

Lemma silent_add_bass_line track bass velocity time_offset :
  Forall (λ t, warns t = false) bass →
  silent (add_bass_line self track bass velocity time_offset).
Proof.
  intros Hm. unfold add_bass_line.
  apply silent_bind; [by apply silent_bass_loop|]. intros [tr c]. apply silent_ret.
Qed.
End SilentLoops.

Lemma section_data_renders :
  map_Forall (λ _ sd, section_renders MidiConverter_init sd = true) section_data.
Proof.
  unfold section_data. simpl list_to_map.
  repeat (apply map_Forall_insert_2; [by vm_compute|]). apply map_Forall_empty.
Qed.

Lemma section_renders_spec (self : MidiConverter) (sd : SectionData) :
  section_renders self sd = true →
  s_chords sd ≠ [] ∧ s_rhythm sd ≠ [] ∧
  Forall (λ c, known_chord self c = true) (s_chords sd) ∧
  Forall (λ t, warns t = false) (s_melody sd) ∧
  Forall (λ t, warns t = false) (s_bass sd) ∧
  data_byte (s_velocity sd) = true ∧
  data_byte (Z.min (s_velocity sd + 10) 127) = true ∧
  data_byte (Z.max 50 (s_velocity sd - 15)) = true.
Proof.
  unfold section_renders. rewrite !andb_true_iff, !negb_true_iff, !forallb_forall.
  intros [[[[[[[Hc Hr] Hk] Hm] Hb] Hv] Hv1] Hv2].
  split_and!; [| | | | |done..].
  - intros E. by rewrite E in Hc.
  - intros E. by rewrite E in Hr.
  - by apply List.Forall_forall.
  - apply List.Forall_forall. intros t Ht. apply Hm in Ht.
    by apply negb_true_iff in Ht.
  - apply List.Forall_forall. intros t Ht. apply Hb in Ht.
    by apply negb_true_iff in Ht.
Qed.

Lemma create_section_renders :
  ∃ table : string → SectionData,
    ∀ name bars start,
      section_renders MidiConverter_init (table name) = true ∧
      ∀ out, create_section MidiConverter_init name bars start out
             = (Ok (table name), out).
Proof.
  destruct create_section_returns as (intro & Hintro & Hret).
  exists (λ name, dict_get section_data name intro). intros name bars start. split.
  - unfold dict_get. destruct (section_data !! name) as [sd|] eqn:E; simpl.
    + by apply (section_data_renders name).
    + by apply (section_data_renders "intro").
  - intros out. apply returns_silent; [apply Hret|]. unfold create_section.
    apply silent_bind; [apply silent_dict_getitem|]. intros sd. apply silent_ret.
Qed.

Lemma render_section_data_ok (sd : SectionData) (bars offset : Z) t out :
  section_renders MidiConverter_init sd = true →
  ∃ t', render_section_data MidiConverter_init sd bars offset t out = (Ok t', out).
Proof.
  intros Hsd.
  apply section_renders_spec in Hsd as (Hc & Hr & _ & Hm & Hb & Hv & Hv1 & Hv2).
  destruct (chord_sequence_of_returns (s_chords sd) bars Hc) as (cs & Hcs & _).
  pose proof (add_chord_progression_returns (chord_track t) (s_chords sd) bars
                (s_velocity sd) offset cs Hcs Hv) as H1.
  destruct (add_melody_returns MidiConverter_init notes_init_range (melody_track t)
              (s_melody sd) (s_rhythm sd) _ offset Hr Hv1 Hm) as (mevs & H2 & _).
  destruct (add_bass_line_returns MidiConverter_init notes_init_range (bass_track t)
              (s_bass sd) _ offset Hv2 Hb) as (bevs & H3 & _).
  eexists. unfold render_section_data.
  rewrite (bind_Ok _ _ _ _ _
             (returns_silent _ _ out H1 (silent_add_chord_progression _ _ _ _ _ _))).
  rewrite (bind_Ok _ _ _ _ _
             (returns_silent _ _ out H2 (silent_add_melody _ _ _ _ _ _ Hm))).
  rewrite (bind_Ok _ _ _ _ _
             (returns_silent _ _ out H3 (silent_add_bass_line _ _ _ _ _ Hb))).
  done.
Qed.

Lemma generate_section_ok (name : string) (bars : Z) t ct out :
  ∃ t', generate_section MidiConverter_init name bars t ct out = (Ok (t', 0), out).
Proof.
  destruct create_section_renders as [table Htable].
  destruct (Htable name bars 0) as [Hr Hsd].
  destruct (render_section_data_ok (table name) bars
              (if String.eqb name "intro" then ct else 0) t out Hr) as [t1 H1].
  exists t1. unfold generate_section.
  rewrite (bind_Ok _ _ _ _ _ (Hsd out)). by rewrite (bind_Ok _ _ _ _ _ H1).
Qed.

(** X22: the loop of [generate_midi] gets through any structure: for
    every list of section names and bar counts, known names or not,
    positive bar counts or not, it returns, prints nothing, and leaves
    [current_time] at 0 once a section has been rendered. *)
Theorem generate_sections_returns (sections : list (string * Z)) t ct out :
  ∃ t', generate_sections MidiConverter_init sections t ct out
        = (Ok (t', match sections with [] => ct | _ => 0 end), out).
Proof.
  revert t ct. induction sections as [|[name bars] l IH]; intros t ct.
  - by exists t.
  - destruct (generate_section_ok name bars t ct out) as [t1 H1].
    destruct (IH t1 0) as [t' H']. exists t'.
    change (generate_sections MidiConverter_init ((name, bars) :: l) t ct out)
      with ((generate_section MidiConverter_init name bars t ct
             ≫= λ '(t, current_time),
                  generate_sections MidiConverter_init l t current_time) out).
    rewrite (bind_Ok _ _ _ _ _ H1), H'. by destruct l.
Qed.

Lemma count_known_all (self : MidiConverter) (cs : list string) :
  Forall (λ c, known_chord self c = true) cs →
  count_known self cs = length cs ∧
  (cs ≠ [] → existsb (known_chord self) cs = true).
Proof.
  unfold count_known. induction 1 as [|c l Hc Hl [IH1 IH2]]; [done|].
  simpl. rewrite Hc. simpl. by rewrite IH1.
Qed.

(** X23: in every section of the table all chord names are in the chord
    table, so no bar is skipped: for every section name and every bar
    count of 1 or more, the delta-times of the chords rendered add up to
    the offset plus [bars] whole notes of 1920 ticks. *)
Theorem section_chord_time (name : string) (bars velocity time_offset : Z) :
  1 ≤ bars → data_byte velocity = true →
  ∃ sd evs,
    returns (create_section MidiConverter_init name bars 0) sd ∧
    returns (add_chord_progression MidiConverter_init [] (s_chords sd) bars
               velocity time_offset) evs ∧
    total_time evs = time_offset + 1920 * bars.
Proof.
  intros Hb Hv. destruct create_section_renders as [table Htable].
  destruct (Htable name bars 0) as [Hr Hsd].
  apply section_renders_spec in Hr as (Hc & _ & Hk & _).
  set (cs := list_slice_to
               (list_mul (s_chords (table name))
                  (bars / len (s_chords (table name)) + 1)) bars).
  assert (returns (chord_sequence_of (s_chords (table name)) bars) cs) as Hcs.
  { intros out. exists out. by apply chord_sequence_of_ok. }
  destruct (cyclic_slice (s_chords (table name)) bars Hc) as [Hlen _].
  fold cs in Hlen.
  destruct (count_known_all MidiConverter_init cs) as [Hcount Hex].
  { by apply cyclic_slice_Forall. }
  exists (table name), (concat (chord_blocks MidiConverter_init velocity 1920 cs
                                  time_offset)).
  split_and!.
  - intros out. exists out. apply Hsd.
  - by apply (add_chord_progression_returns []).
  - rewrite (chord_blocks_total_time _ _ _ chords_init_nonempty), Hcount, Hex, Hlen.
    + lia.
    + intros E. rewrite E in Hlen. simpl in Hlen. lia.
Qed.

Lemma section_chord_time_witness :
  1 ≤ 8 ∧ data_byte 60 = true ∧
  ∃ sd evs,
    returns (create_section MidiConverter_init "outro" 8 0) sd ∧
    returns (add_chord_progression MidiConverter_init [] (s_chords sd) 8 60 0) evs ∧
    total_time evs = 0 + 1920 * 8.
Proof.
  split; [lia|]. split; [reflexivity|].
  apply (section_chord_time "outro" 8 60 0); [lia | reflexivity].
Defined.

(** X24: the lead hook goes out on channel 1.  On any track, the call
    of [add_melody] that [generate_midi] makes for [lead_track] returns,
    prints nothing and appends 32 messages, all on channel 1 (the
    channel of the melody track), the first a begin of pitch 81 after
    15360 ticks (32 beats). *)
Theorem add_lead_hook_messages track out :
  ∃ evs,
    add_lead_hook MidiConverter_init track out = (Ok (track ++ evs), out) ∧
    length evs = 32%nat ∧
    Forall (λ m, msg_channel m = 1) evs ∧
    evs !! 0%nat = Some (note_on 1 81 100 15360) ∧
    total_time evs = 15360 + 4800.
Proof.
  unfold add_lead_hook.
  rewrite add_melody_frame.
  eexists. split; [by vm_compute|].
  split; [by vm_compute|]. split; [|split; by vm_compute].
  repeat constructor.
Qed.

(** ** The renderers on any arguments *)

Lemma print_error_with_lines (out : stdout) (ls : list string) (t : string) :
  print_error (with_lines out ls) t = print_error out t.
Proof. reflexivity. Qed.

Lemma Message_note_on_ok (c n v t : Z) out :
  channel_ok c = true → data_byte n = true → data_byte v = true →
  Message_note_on c n v t out = (Ok (note_on c n v t), out).
Proof. intros Hc Hn Hv. unfold Message_note_on. by rewrite Hc, Hn, Hv. Qed.

Lemma Message_note_off_ok (c n v t : Z) out :
  channel_ok c = true → data_byte n = true → data_byte v = true →
  Message_note_off c n v t out = (Ok (note_off c n v t), out).
Proof. intros Hc Hn Hv. unfold Message_note_off. by rewrite Hc, Hn, Hv. Qed.

Lemma pitch_of_init_byte (t : string) :
  data_byte (pitch_of MidiConverter_init t) = true.
Proof. apply data_byte_spec, pitch_of_range, notes_init_range. Qed.

(** With a rhythm to read and a velocity that is a data byte, the melody
    loop returns on every melody whose warnings standard output can
    encode. *)
Lemma melody_loop_printable (rhythm : list Q) (velocity : Z) (melody : list string) :
  rhythm ≠ [] → data_byte velocity = true →
  ∀ (j : nat) track ct out,
    Forall (λ t, print_error out t = None) melody →
    ∃ res out',
      melody_loop MidiConverter_init rhythm velocity melody (Z.of_nat j) track ct out
      = (Ok res, out').
Proof.
  intros Hr Hv. induction melody as [|name melody IH]; intros j track ct out Hp.
  - by eexists _, _.
  - apply Forall_cons in Hp as [Hn Hp].
    simpl. replace (Z.of_nat j + 1) with (Z.of_nat (S j)) by lia.
    destruct (String.eqb name "rest"); unfold mbind, M_bind.
    + rewrite py_mod_ok by by apply len_nonzero.
      rewrite rhythm_read_ok by done. by apply IH.
    + rewrite note_name_to_midi_exact, Hn.
      rewrite py_mod_ok by by apply len_nonzero.
      rewrite rhythm_read_ok by done.
      rewrite Message_note_on_ok by (done || apply pitch_of_init_byte).
      rewrite Message_note_off_ok by (done || apply pitch_of_init_byte).
      by apply IH.
Qed.

Lemma bass_loop_printable (velocity : Z) (beats : Q) (bass : list string) :
  data_byte velocity = true →
  ∀ track ct out,
    Forall (λ t, print_error out t = None) bass →
    ∃ res out',
      bass_loop MidiConverter_init velocity beats bass track ct out = (Ok res, out').
Proof.
  intros Hv. induction bass as [|name bass IH]; intros track ct out Hp.
  - by eexists _, _.
  - apply Forall_cons in Hp as [Hn Hp].
    simpl. unfold mbind, M_bind.
    rewrite note_name_to_midi_exact, Hn.
    rewrite Message_note_on_ok by (done || apply pitch_of_init_byte).
    rewrite Message_note_off_ok by (done || apply pitch_of_init_byte).
    by apply IH.
Qed.

(** The blocks of a chord sequence are those of its known names. *)
Lemma chord_blocks_known (self : MidiConverter) (velocity hold : Z)
    (chord_sequence : list string) :
  ∀ ct,
    concat (chord_blocks self velocity hold chord_sequence ct)
    = concat (chord_blocks self velocity hold
                (List.filter (known_chord self) chord_sequence) ct).
Proof.
  induction chord_sequence as [|c l IH]; intros ct; [done|]. simpl.
  destruct (chords self !! c) as [ps|] eqn:E.
  - rewrite (known_chord_Some self c ps E). simpl. rewrite E. simpl.
    by rewrite IH.
  - rewrite (known_chord_None self c E). simpl. apply IH.
Qed.



